(** * splat-transform: the ingestion / merge / commit pipeline of [src/index.ts]

    A shallow embedding of [readFile], [getOutputFormat], [writeFile],
    [combine], [isGSDataTable] and [convertGsplat], followed by the
    properties the specification states about them. *)

From Stdlib Require Import ZArith String Ascii.
From Stdlib Require Strings.Byte.
From stdpp Require Import gmap strings list pretty.

Local Open Scope string_scope.
Local Open Scope nat_scope.
Local Open Scope list_scope.

(** ** Exceptions

    A JavaScript computation either returns a value or throws.  An [await]ed
    promise that rejects is a throw at the [await]. *)

Inductive Error : Type :=
  | UnsupportedInput (filename : string)   (* Error(`Unsupported input file type: ...`) *)
  | UnsupportedOutput (filename : string)  (* Error(`Unsupported output file type: ...`) *)
  | UnsupportedData (filename : string)    (* Error(`Unsupported data in file '...'`) *)
  | NoSplats                               (* Error('No splats to write') *)
  | TypeError                              (* property access on null / undefined *)
  | RangeError                             (* TypedArray.prototype.set out of bounds *)
  | IOError (code : string)                (* a rejected node:fs/promises call *)
  | CodecError (msg : string).             (* whatever a reader / writer / processor throws *)

Inductive Outcome (A : Type) : Type :=
  | Return (a : A)
  | Throw (e : Error).
Arguments Return {A} a.
Arguments Throw {A} e.

Definition bindO {A B} (m : Outcome A) (k : A → Outcome B) : Outcome B :=
  match m with
  | Return a => k a
  | Throw e => Throw e
  end.

Global Instance Outcome_ret : MRet Outcome := @Return.
Global Instance Outcome_bind : MBind Outcome := λ A B k m, bindO m k.

(** ** Strings

    File names are sequences of 8-bit code units, the UTF-8 form of the
    JavaScript string.  [toLowerCase] folds the letters A-Z, U+212A KELVIN
    SIGN (to [k]) and U+0130 (to [i] followed by U+0307): these are the
    characters whose lower-case form has an ASCII letter in it.  Every other
    character above U+007F lower-cases to characters above U+007F and is left
    as it is here, which changes no test of the name against an ASCII suffix.
    [endsWith] is the suffix test. *)

Definition lowerChar (c : ascii) : ascii :=
  let n := nat_of_ascii c in
  if (65 <=? n) && (n <=? 90) then ascii_of_nat (n + 32) else c.

(** The UTF-8 bytes of U+0130 (C4 B0) and of U+212A (E2 84 AA). *)
Definition isDottedI (c1 c2 : ascii) : bool :=
  Ascii.eqb c1 "196"%char && Ascii.eqb c2 "176"%char.

Definition isKelvin (c1 c2 c3 : ascii) : bool :=
  Ascii.eqb c1 "226"%char && Ascii.eqb c2 "132"%char && Ascii.eqb c3 "170"%char.

Fixpoint toLowerCase (s : string) : string :=
  match s with
  | EmptyString => EmptyString
  | String c1 s1 =>
      match s1 with
      | EmptyString => String (lowerChar c1) EmptyString
      | String c2 s2 =>
          if isDottedI c1 c2 then
            String "i"%char (String "204"%char (String "135"%char (toLowerCase s2)))
          else
            match s2 with
            | EmptyString => String (lowerChar c1) (toLowerCase s1)
            | String c3 s3 =>
                if isKelvin c1 c2 c3 then String "k"%char (toLowerCase s3)
                else String (lowerChar c1) (toLowerCase s1)
            end
      end
  end.

(** An ASCII code unit that is no upper-case letter, and strings of them (the
    suffixes the code tests are such strings). *)
Definition plainChar (c : ascii) : bool :=
  (nat_of_ascii c <? 128) && Ascii.eqb (lowerChar c) c.

Definition plain (s : string) : bool :=
  forallb plainChar (list_ascii_of_string s).

Definition chars (s : string) : list ascii := list_ascii_of_string s.

Definition endsWith (s suffix : string) : bool :=
  bool_decide (chars suffix `suffix_of` chars s).

(** ** Format resolver: [getOutputFormat] *)

Inductive OutputFormat : Type :=
  | FmtCsv | FmtLod | FmtSog | FmtCompressedPly | FmtPly | FmtHtml.

Definition getOutputFormat (filename : string) : Outcome OutputFormat :=
  let lowerFilename := toLowerCase filename in
  if endsWith lowerFilename ".csv" then Return FmtCsv
  else if endsWith lowerFilename "lod-meta.json" then Return FmtLod
  else if endsWith lowerFilename ".sog" || endsWith lowerFilename "meta.json" then Return FmtSog
  else if endsWith lowerFilename ".compressed.ply" then Return FmtCompressedPly
  else if endsWith lowerFilename ".ply" then Return FmtPly
  else if endsWith lowerFilename ".html" then Return FmtHtml
  else Throw (UnsupportedOutput filename).

(** The resolution rule in the words of the specification: an ordered table
    of suffix groups, tested against the lower-cased name, first match wins. *)
Definition outputSuffixRules : list (list string * OutputFormat) :=
  [ ([".csv"], FmtCsv);
    (["lod-meta.json"], FmtLod);
    ([".sog"; "meta.json"], FmtSog);
    ([".compressed.ply"], FmtCompressedPly);
    ([".ply"], FmtPly);
    ([".html"], FmtHtml) ].

Definition resolveOutputKind (filename : string) : Outcome OutputFormat :=
  match List.find (λ rule, existsb (endsWith (toLowerCase filename)) rule.1)
                  outputSuffixRules with
  | Some rule => Return rule.2
  | None => Throw (UnsupportedOutput filename)
  end.

(** ** Column / table model

    Modelled from the spec: [Column], [DataTable] and [TypedArray] are
    declared in [data-table.ts], which is not part of the sources.  Section 3
    of the specification gives a column a name, an element type and a
    contiguous numeric buffer, and a table an ordered sequence of columns with
    a derived [numRows].  A typed array is its constructor together with its
    cells; a cell is the stored bit pattern, so a freshly constructed array
    holds zeros and [set] between arrays of one constructor copies cells
    verbatim. *)

Inductive ElementType : Type :=
  | Int8 | Uint8 | Int16 | Uint16 | Int32 | Uint32 | Float32 | Float64.

Global Instance ElementType_eq_dec : EqDecision ElementType.
Proof. solve_decision. Defined.

Record TypedArray : Type := mkTypedArray {
  ctor : ElementType;
  cells : list Z
}.

(** [new constructor(length)] *)
Definition newTypedArray (c : ElementType) (len : nat) : TypedArray :=
  mkTypedArray c (replicate len 0%Z).

(** [target.set(source, offset)]: a [RangeError] when the source does not fit. *)
Definition typedArraySet (target source : TypedArray) (offset : nat) : Outcome TypedArray :=
  if decide (offset + length (cells source) ≤ length (cells target)) then
    Return (mkTypedArray (ctor target)
              (take offset (cells target) ++ cells source
               ++ drop (offset + length (cells source)) (cells target)))
  else Throw RangeError.

Record Column : Type := mkColumn {
  name : string;
  data : TypedArray
}.

Definition dataType (c : Column) : ElementType := ctor (data c).

Record DataTable : Type := mkDataTable {
  columns : list Column
}.

(** Modelled from the spec: [numRows] is derived from the columns, which all
    have one length; it is read off the first column (0 without columns). *)
Definition numRows (t : DataTable) : nat :=
  match columns t with
  | [] => 0
  | c :: _ => length (cells (data c))
  end.

(** Modelled from the spec: [hasColumn] holds when the name is present as a
    column of the table. *)
Definition hasColumn (t : DataTable) (n : string) : bool :=
  existsb (fun c => String.eqb (name c) n) (columns t).

(** ** Combiner: [combine] *)

Definition sameIdentity (a b : Column) : bool :=
  bool_decide (name a = name b ∧ dataType a = dataType b).

(** The loop returns [columns[i]] for the first matching [i]; the column
    object is identified here by its position [i] in the array. *)
Fixpoint findMatchingColumn (columns : list Column) (column : Column) : option nat :=
  match columns with
  | [] => None
  | c :: rest =>
      if sameIdentity c column then Some 0
      else S <$> findMatchingColumn rest column
  end.

(** One step of the inner loop of "make unique list of columns". *)
Definition pushIfNew (columns : list Column) (column : Column) : list Column :=
  match findMatchingColumn columns column with
  | Some _ => columns
  | None => columns ++ [column]
  end.

Definition uniqueColumns (first : DataTable) (others : list DataTable) : list Column :=
  fold_left (fun cols t => fold_left pushIfNew (columns t) cols) others (columns first).

Definition totalRows (dataTables : list DataTable) : nat :=
  fold_left (fun sum t => sum + numRows t) dataTables 0.

Definition freshColumn (total : nat) (column : Column) : Column :=
  mkColumn (name column) (newTypedArray (ctor (data column)) total).

(** [targetColumn.data.set(column.data, rowOffset)] on the column found by
    [findMatchingColumn]; a [TypeError] when that is [null]. *)
Definition copyColumn (result : list Column) (column : Column) (rowOffset : nat)
  : Outcome (list Column) :=
  match findMatchingColumn result column with
  | None => Throw TypeError
  | Some i =>
      match result !! i with
      | None => Throw TypeError
      | Some target =>
          d ← typedArraySet (data target) (data column) rowOffset;
          Return (<[i := mkColumn (name target) d]> result)
      end
  end.

Fixpoint copyColumns (result : list Column) (cols : list Column) (rowOffset : nat)
  : Outcome (list Column) :=
  match cols with
  | [] => Return result
  | column :: rest =>
      result' ← copyColumn result column rowOffset;
      copyColumns result' rest rowOffset
  end.

Fixpoint copyTables (result : list Column) (dataTables : list DataTable) (rowOffset : nat)
  : Outcome (list Column) :=
  match dataTables with
  | [] => Return result
  | dataTable :: rest =>
      result' ← copyColumns result (columns dataTable) rowOffset;
      copyTables result' rest (rowOffset + numRows dataTable)
  end.

Definition combine (dataTables : list DataTable) : Outcome DataTable :=
  match dataTables with
  | [] => Throw TypeError                 (* dataTables[0] is undefined *)
  | [t] => Return t                       (* nothing to combine *)
  | first :: others =>
      let columns := uniqueColumns first others in
      let total := totalRows dataTables in
      let resultColumns := map (freshColumn total) columns in
      copied ← copyTables resultColumns dataTables 0;
      Return (mkDataTable copied)
  end.

(** The same function on object references: a store of table objects, the
    argument an array of addresses.  The one-element case hands back the
    address it was given; the general case allocates the result. *)
Definition Store : Type := list DataTable.

Definition derefAll (st : Store) (refs : list nat) : Outcome (list DataTable) :=
  match mapM (fun r => st !! r) refs with
  | Some ts => Return ts
  | None => Throw TypeError
  end.

Definition combineRef (st : Store) (refs : list nat) : Outcome (Store * nat) :=
  match refs with
  | [r] => Return (st, r)
  | _ =>
      ts ← derefAll st refs;
      t ← combine ts;
      Return (st ++ [t], length st)
  end.

(** Vocabulary for the statements about [combine]: the identity of a column,
    the invariant of the data model (every column of a table has [numRows]
    cells), the running row offset of the [i]-th input, and the cell of
    column [k] at row [r]. *)
Definition identity (c : Column) : string * ElementType := (name c, dataType c).

Definition wfTable (t : DataTable) : Prop :=
  Forall (λ c, length (cells (data c)) = numRows t) (columns t).

Definition rowOffset (dataTables : list DataTable) (i : nat) : nat :=
  sum_list (numRows <$> take i dataTables).

Definition cell (cols : list Column) (k r : nat) : option Z :=
  c ← cols !! k; cells (data c) !! r.

(** ** Schema validator: [isGSDataTable] *)

Definition gsColumns : list string :=
  [ "x"; "y"; "z";
    "rot_0"; "rot_1"; "rot_2"; "rot_3";
    "scale_0"; "scale_1"; "scale_2";
    "f_dc_0"; "f_dc_1"; "f_dc_2";
    "opacity" ].

Definition isGSDataTable (dataTable : DataTable) : bool :=
  if negb (forallb (fun c => hasColumn dataTable c) gsColumns) then false
  else true.

(** ** Paths

    [basename], [dirname] and [join] of [node:path], for normalized POSIX
    paths (what [resolve] hands to [writeFile]): the path is split at its last
    slash. *)

Fixpoint hasSlash (p : string) : bool :=
  match p with
  | EmptyString => false
  | String c r => Ascii.eqb c "/" || hasSlash r
  end.

Fixpoint basename (p : string) : string :=
  match p with
  | EmptyString => EmptyString
  | String c r =>
      if hasSlash r then basename r
      else if Ascii.eqb c "/" then r else String c r
  end.

Fixpoint beforeLastSlash (p : string) : string :=
  match p with
  | EmptyString => EmptyString
  | String c r => if hasSlash r then String c (beforeLastSlash r) else EmptyString
  end.

Definition dirname (p : string) : string :=
  if hasSlash p then
    match beforeLastSlash p with
    | EmptyString => "/"
    | d => d
    end
  else ".".

Definition join (d n : string) : string :=
  if String.eqb d "." then n
  else if String.eqb d "/" then "/" +:+ n
  else d +:+ "/" +:+ n.

(** [buffer.toString('hex')] *)
Definition hexDigit (n : N) : ascii :=
  if (n <? 10)%N then ascii_of_N (48 + n) else ascii_of_N (87 + n).

Fixpoint toHex (bs : list Byte.byte) : string :=
  match bs with
  | [] => EmptyString
  | b :: rest =>
      let n := Byte.to_N b in
      String (hexDigit (n / 16)) (String (hexDigit (n mod 16)) (toHex rest))
  end.

(** ** The world: files, open handles and what has been observed *)

Inductive Flags : Type := FlagR | FlagWX.
Inductive Device : Type := Cpu | Gpu.

Inductive LogLine : Type :=
  | LogReading (filename : string)       (* console.log(`reading '...'...`) *)
  | LogWriting (filename : string)       (* console.log(`writing '...'...`) *)
  | LogLoaded (n : nat)                  (* console.log(`Loaded ... gaussians`) *)
  | LogError (e : Error).                (* console.error(err) *)

Inductive Event : Type :=
  | EvConsole (l : LogLine)
  | EvOpen (path : string) (flags : Flags) (ok : bool)
  | EvCodecWrite (fmt : OutputFormat) (fd : nat) (ok : bool)
  | EvSync (fd : nat) (ok : bool)
  | EvClose (fd : nat) (ok : bool)
  | EvRename (src dst : string) (ok : bool).

Record World : Type := mkWorld {
  files : gmap string (list Byte.byte);   (* path |-> content *)
  handles : gmap nat (string * Flags);    (* open file handles *)
  nextFd : nat;
  trace : list Event                      (* oldest first *)
}.

Definition record (ev : Event) (w : World) : World :=
  mkWorld (files w) (handles w) (nextFd w) (trace w ++ [ev]).

Inductive Syscall : Type :=
  | SysOpen (path : string) (flags : Flags)
  | SysSync (fd : nat)
  | SysClose (fd : nat)
  | SysRename (src dst : string).

(** A computation with effects on the world that returns or throws. *)
Definition IO (A : Type) : Type := World → World * Outcome A.

Global Instance IO_ret : MRet IO := λ A a w, (w, Return a).
Global Instance IO_bind : MBind IO := λ A B k m w,
  match m w with
  | (w', Return a) => k a w'
  | (w', Throw e) => (w', Throw e)
  end.

Definition throw {A} (e : Error) : IO A := λ w, (w, Throw e).
Definition liftO {A} (o : Outcome A) : IO A := λ w, (w, o).
Definition observe {A} (f : World → Outcome A) : IO A := λ w, (w, f w).
Definition console (l : LogLine) : IO unit := λ w, (record (EvConsole l) w, Return tt).

(** [try { body } finally { fin }]: [fin] runs on both exits; when it throws,
    its exception replaces the outcome of [body]. *)
Definition tryFinally {A} (body : IO A) (fin : IO unit) : IO A := λ w,
  match body w with
  | (w1, r) =>
      match fin w1 with
      | (w2, Return _) => (w2, r)
      | (w2, Throw e) => (w2, Throw e)
      end
  end.

(** [try { body } catch (err) { handler }] *)
Definition tryCatch {A} (body : IO A) (handler : Error → IO A) : IO A := λ w,
  match body w with
  | (w1, Return a) => (w1, Return a)
  | (w1, Throw e) => handler e w1
  end.

(** [promise.catch(() => { /* ignore */ })] *)
Definition catchIgnore (m : IO unit) : IO unit :=
  tryCatch m (λ _, mret tt).

(** ** The host: the operating system and the node runtime

    The host decides the process id, the clock, the random bytes, how a
    relative path resolves, and which system call fails for a reason of its
    own ([hostFault]).  A call that the host does not fail behaves as
    [node:fs/promises] documents it. *)

Class Host : Type := {
  pid : N;                                      (* process.pid *)
  dateNow : World → N;                          (* Date.now() *)
  randomBytes : nat → World → list Byte.byte;   (* crypto.randomBytes(n) *)
  resolve : string → string;                    (* path.resolve *)
  hostFault : Syscall → World → option string
}.

Section OS.
Context `{Host}.

(** [open(path, flags)]: ['r'] needs the file to exist, ['wx'] creates it and
    fails if the path exists. *)
Definition os_open (path : string) (flags : Flags) : IO nat := λ w,
  match hostFault (SysOpen path flags) w with
  | Some code => (record (EvOpen path flags false) w, Throw (IOError code))
  | None =>
      match flags, files w !! path with
      | FlagR, None => (record (EvOpen path flags false) w, Throw (IOError "ENOENT"))
      | FlagWX, Some _ => (record (EvOpen path flags false) w, Throw (IOError "EEXIST"))
      | _, _ =>
          let fd := nextFd w in
          let files' := match flags with
                        | FlagWX => <[path := []]> (files w)
                        | FlagR => files w
                        end in
          (mkWorld files' (<[fd := (path, flags)]> (handles w)) (S fd)
                   (trace w ++ [EvOpen path flags true]),
           Return fd)
      end
  end.

(** [filehandle.sync()] *)
Definition os_sync (fd : nat) : IO unit := λ w,
  match hostFault (SysSync fd) w with
  | Some code => (record (EvSync fd false) w, Throw (IOError code))
  | None =>
      match handles w !! fd with
      | None => (record (EvSync fd false) w, Throw (IOError "EBADF"))
      | Some _ => (record (EvSync fd true) w, Return tt)
      end
  end.

(** [filehandle.close()]: the descriptor is released also when the call
    reports an error. *)
Definition os_close (fd : nat) : IO unit := λ w,
  let released := mkWorld (files w) (delete fd (handles w)) (nextFd w) (trace w) in
  match hostFault (SysClose fd) w with
  | Some code => (record (EvClose fd false) released, Throw (IOError code))
  | None =>
      match handles w !! fd with
      | None => (record (EvClose fd false) w, Throw (IOError "EBADF"))
      | Some _ => (record (EvClose fd true) released, Return tt)
      end
  end.

(** [rename(src, dst)]: replaces whatever is at [dst]. *)
Definition os_rename (src dst : string) : IO unit := λ w,
  match hostFault (SysRename src dst) w with
  | Some code => (record (EvRename src dst false) w, Throw (IOError code))
  | None =>
      match files w !! src with
      | None => (record (EvRename src dst false) w, Throw (IOError "ENOENT"))
      | Some content =>
          (mkWorld (<[dst := content]> (delete src (files w))) (handles w) (nextFd w)
                   (trace w ++ [EvRename src dst true]),
           Return tt)
      end
  end.

End OS.

(** ** File records and the external collaborators *)

Record Element : Type := mkElement {
  elementName : string;                  (* the [name] of the element *)
  dataTable : DataTable
}.

Record FileData : Type := mkFileData {
  comments : list string;
  elements : list Element
}.

Record Options : Type := mkOptions {
  overwrite : bool;
  help : bool;
  version : bool;
  cpu : bool;
  iterations : nat;
  viewerSettingsPath : option string
}.

(** The format codecs and the row-level transform live in modules that are
    not part of the sources; they are parameters here.  A reader inspects the
    world through the handle (or the file name) it is given and returns a file
    record or throws.  A writer is given the open handle and produces the
    bytes it writes into it, and then either returns or throws. *)
Class Codecs : Type := {
  Param : Type;
  ProcessAction : Type;
  readMjs : string → list Param → World → Outcome FileData;
  readKsplat : nat → World → Outcome FileData;
  readSplat : nat → World → Outcome FileData;
  readSog : nat → string → World → Outcome FileData;
  readPly : nat → World → Outcome FileData;
  readSpz : nat → World → Outcome FileData;
  isCompressedPly : FileData → bool;
  decompressPly : FileData → Outcome DataTable;
  processDataTable : DataTable → list ProcessAction → Outcome DataTable;
  writeSog : nat → DataTable → string → nat → Device → World → list Byte.byte * option Error;
  writeLod : nat → DataTable → string → nat → Device → World → list Byte.byte * option Error;
  writeCompressedPly : nat → DataTable → World → list Byte.byte * option Error;
  writePly : nat → FileData → World → list Byte.byte * option Error
}.

(** Modelled from the spec: section 6 has a writer write into the already
    open temporary handle it is given, possibly fail with an error of its
    own, and leave the handle open.  Running a writer lands its bytes in the
    file behind the handle. *)
Definition writeThrough (fmt : OutputFormat) (fd : nat)
    (codec : World → list Byte.byte * option Error) : IO unit := λ w,
  match codec w with
  | (bytes, failure) =>
      match handles w !! fd with
      | None => (record (EvCodecWrite fmt fd false) w, Throw (IOError "EBADF"))
      | Some (path, _) =>
          (mkWorld (<[path := default [] (files w !! path) ++ bytes]> (files w))
                   (handles w) (nextFd w)
                   (trace w ++ [EvCodecWrite fmt fd (bool_decide (failure = None))]),
           match failure with
           | None => Return tt
           | Some e => Throw e
           end)
      end
  end.

Section Pipeline.
Context `{Host} `{Codecs}.

(** ** [readFile] *)

Definition readFile (filename : string) (params : list Param) : IO FileData :=
  let lowerFilename := toLowerCase filename in
  _ ← console (LogReading filename);
  if endsWith lowerFilename ".mjs" then
    observe (readMjs filename params)
  else
    inputFile ← os_open filename FlagR;
    fileData ←
      (if endsWith lowerFilename ".ksplat" then
         observe (readKsplat inputFile)
       else if endsWith lowerFilename ".splat" then
         observe (readSplat inputFile)
       else if endsWith lowerFilename ".sog" || endsWith lowerFilename "meta.json" then
         observe (readSog inputFile filename)
       else if endsWith lowerFilename ".ply" then
         ply ← observe (readPly inputFile);
         if isCompressedPly ply then
           table ← liftO (decompressPly ply);
           mret (mkFileData (comments ply) [mkElement "vertex" table])
         else mret ply
       else if endsWith lowerFilename ".spz" then
         observe (readSpz inputFile)
       else
         _ ← os_close inputFile;
         throw (UnsupportedInput filename));
    _ ← os_close inputFile;
    mret fileData.

(** Vocabulary for the statements about [readFile]: the world once the input
    file is open, and the reader that the suffix selects (none for an
    unsupported type). *)
Definition openedForRead (filename : string) (w : World) : World :=
  mkWorld (files w)
          (<[nextFd w := (filename, FlagR)]> (handles w))
          (S (nextFd w))
          (trace w ++ [EvConsole (LogReading filename); EvOpen filename FlagR true]).

Definition selectedReader (filename : string) (inputFile : nat)
  : option (World → Outcome FileData) :=
  let lowerFilename := toLowerCase filename in
  if endsWith lowerFilename ".ksplat" then Some (readKsplat inputFile)
  else if endsWith lowerFilename ".splat" then Some (readSplat inputFile)
  else if endsWith lowerFilename ".sog" || endsWith lowerFilename "meta.json" then
    Some (readSog inputFile filename)
  else if endsWith lowerFilename ".ply" then
    Some (λ w, ply ← readPly inputFile w;
               if isCompressedPly ply then
                 table ← decompressPly ply;
                 Return (mkFileData (comments ply) [mkElement "vertex" table])
               else Return ply)
  else if endsWith lowerFilename ".spz" then Some (readSpz inputFile)
  else None.

(** ** Commit writer: [writeFile] *)

Definition tmpFilename (filename : string) (w : World) : string :=
  "." +:+ basename filename +:+ "." +:+ pretty pid +:+ "." +:+ pretty (dateNow w)
      +:+ "." +:+ toHex (randomBytes 6 w) +:+ ".tmp".

Definition tmpPathname (filename : string) (w : World) : string :=
  join (dirname filename) (tmpFilename filename w).

Definition device (options : Options) : Device :=
  if cpu options then Cpu else Gpu.

(** The [switch (outputFormat)] statement: four cases, no default. *)
Definition dispatchWriter (outputFormat : OutputFormat) (outputFile : nat)
    (dataTable : DataTable) (filename : string) (options : Options) : IO unit :=
  match outputFormat with
  | FmtSog =>
      writeThrough FmtSog outputFile
        (writeSog outputFile dataTable filename (iterations options) (device options))
  | FmtLod =>
      writeThrough FmtLod outputFile
        (writeLod outputFile dataTable filename (iterations options) (device options))
  | FmtCompressedPly =>
      writeThrough FmtCompressedPly outputFile
        (writeCompressedPly outputFile dataTable)
  | FmtPly =>
      writeThrough FmtPly outputFile
        (writePly outputFile (mkFileData [] [mkElement "vertex" dataTable]))
  | FmtCsv | FmtHtml => mret tt
  end.

Definition writeFile (filename : string) (dataTable : DataTable) (options : Options)
  : IO unit :=
  (* get the output format, throws on failure *)
  outputFormat ← liftO (getOutputFormat filename);
  _ ← console (LogWriting filename);
  (* write to a temporary file and rename on success *)
  tmp ← observe (λ w, Return (tmpPathname filename w));
  (* open the tmp output file *)
  outputFile ← os_open tmp FlagWX;
  _ ← tryFinally
        ((* write the file data *)
         _ ← dispatchWriter outputFormat outputFile dataTable filename options;
         (* flush to disk *)
         os_sync outputFile)
        (catchIgnore (os_close outputFile));
  (* atomically rename to target filename *)
  os_rename tmp filename.

(** Vocabulary for the statements about [writeFile]: the world right after
    the temporary file has been opened, what the dispatched writer produces
    there (nothing for a kind without a case in the switch), and the event a
    writer leaves in the trace. *)
Definition announced (filename : string) (w : World) : World :=
  record (EvConsole (LogWriting filename)) w.

Definition staged (filename : string) (w : World) : World :=
  let tmp := tmpPathname filename (announced filename w) in
  mkWorld (<[tmp := []]> (files w))
          (<[nextFd w := (tmp, FlagWX)]> (handles w))
          (S (nextFd w))
          (trace w ++ [EvConsole (LogWriting filename); EvOpen tmp FlagWX true]).

Definition selectedWriter (outputFormat : OutputFormat) (outputFile : nat)
    (table : DataTable) (filename : string) (options : Options)
  : World → list Byte.byte * option Error :=
  match outputFormat with
  | FmtSog => writeSog outputFile table filename (iterations options) (device options)
  | FmtLod => writeLod outputFile table filename (iterations options) (device options)
  | FmtCompressedPly => writeCompressedPly outputFile table
  | FmtPly => writePly outputFile (mkFileData [] [mkElement "vertex" table])
  | FmtCsv | FmtHtml => λ _, ([], None)
  end.

Definition codecEvents (outputFormat : OutputFormat) (fd : nat) (ok : bool) : list Event :=
  match outputFormat with
  | FmtCsv | FmtHtml => []
  | _ => [EvCodecWrite outputFormat fd ok]
  end.

(** The world once the writer has run, and once the handle has been closed
    with the error of [close], if any, swallowed. *)
Definition written (outputFormat : OutputFormat) (table : DataTable)
    (filename : string) (options : Options) (w : World) : World :=
  let w1 := staged filename w in
  let out := selectedWriter outputFormat (nextFd w) table filename options w1 in
  mkWorld (<[tmpPathname filename (announced filename w) := out.1]> (files w))
          (handles w1) (nextFd w1)
          (trace w1 ++ codecEvents outputFormat (nextFd w) (bool_decide (out.2 = None))).

Definition closed (fd : nat) (w : World) : World :=
  mkWorld (files w) (delete fd (handles w)) (nextFd w)
          (trace w ++ [EvClose fd (bool_decide (hostFault (SysClose fd) w = None))]).

(** ** Pipeline orchestrator: [convertGsplat] *)

Record ConvertResult : Type := mkResult {
  isOk : bool;
  error : option Error
}.

Definition defaultOptions : Options :=
  mkOptions true false false true 10 None.

Definition firstTable (file : FileData) : Outcome DataTable :=
  match elements file with
  | e :: _ => Return (dataTable e)
  | [] => Throw TypeError
  end.

Definition readInput (filename : string) : IO FileData :=
  (* read input *)
  file ← readFile (resolve filename) [];
  (* filter out non-gs data *)
  match elements file with
  | [element] =>
      if negb (String.eqb (elementName element) "vertex") then
        throw (UnsupportedData filename)
      else
        let table := dataTable element in
        if (numRows table =? 0) || negb (isGSDataTable table) then
          throw (UnsupportedData filename)
        else
          table' ← liftO (processDataTable table []);
          mret (mkFileData (comments file) [mkElement (elementName element) table'])
  | _ => throw (UnsupportedData filename)
  end.

(** The body of the [try] block. *)
Definition tryBlock (filename outputFilename : string) : IO ConvertResult :=
  (* read, filter, process input files *)
  inputFile ← readInput filename;
  (* combine inputs into a single output dataTable *)
  table ← liftO (tables ← mapM firstTable [inputFile];
                 combined ← combine tables;
                 processDataTable combined []);
  if numRows table =? 0 then throw NoSplats
  else
    _ ← console (LogLoaded (numRows table));
    (* write file *)
    _ ← writeFile (resolve outputFilename) table defaultOptions;
    mret (mkResult true None).

Definition convertGsplat (filename outputFilename : string) : IO ConvertResult :=
  tryCatch
    (tryBlock filename outputFilename)
    (λ err,
       (* handle errors *)
       _ ← console (LogError err);
       mret (mkResult false (Some err))).

End Pipeline.

(** Vocabulary for the statements about [convertGsplat]: what the
    "filter out non-gs data" tests let through, namely a file record with
    exactly one element, named [vertex], whose table has rows and passes
    [isGSDataTable]. *)
Definition validInput (file : FileData) : bool :=
  match elements file with
  | [element] =>
      String.eqb (elementName element) "vertex"
      && negb (numRows (dataTable element) =? 0)
      && isGSDataTable (dataTable element)
  | _ => false
  end.

(** ** Sample inputs

    A host that never fails a call, codecs that succeed, codecs whose ply
    reader and writer throw, and a few small tables. *)

Definition quietHost : Host :=
  {| pid := 4242%N;
     dateNow := λ _, 1700000000000%N;
     randomBytes := λ n _, replicate n Byte.xab;
     resolve := λ p, p;
     hostFault := λ _ _, None |}.

Definition f32 (n : string) (cs : list Z) : Column :=
  mkColumn n (mkTypedArray Float32 cs).

Definition splatTable : DataTable :=
  mkDataTable (map (λ n, f32 n [1; 2]%Z) gsColumns).

Definition splatFile : FileData :=
  mkFileData [] [mkElement "vertex" splatTable].

Definition payload : list Byte.byte := [Byte.x70; Byte.x6c; Byte.x79].

(** Codecs whose readers all answer [read] and whose writers all answer
    [write]; the row-level transform is the identity. *)
Definition sampleCodecs (read : Outcome FileData)
    (write : list Byte.byte * option Error) : Codecs :=
  {| Param := unit;
     ProcessAction := unit;
     readMjs := λ _ _ _, read;
     readKsplat := λ _ _, read;
     readSplat := λ _ _, read;
     readSog := λ _ _ _, read;
     readPly := λ _ _, read;
     readSpz := λ _ _, read;
     isCompressedPly := λ _, false;
     decompressPly := λ _, Return splatTable;
     processDataTable := λ t _, Return t;
     writeSog := λ _ _ _ _ _ _, write;
     writeLod := λ _ _ _ _ _ _, write;
     writeCompressedPly := λ _ _ _, write;
     writePly := λ _ _ _, write |}.

Definition goodCodecs : Codecs :=
  sampleCodecs (Return splatFile) (payload, None).

Definition brokenPlyCodecs : Codecs :=
  sampleCodecs (Throw (CodecError "bad ply header"))
               ([Byte.x70], Some (CodecError "disk full")).

Definition oldContent : list Byte.byte := [Byte.x6f; Byte.x6c; Byte.x64].

Definition sampleWorld : World :=
  mkWorld (<["/in/a.ply" := payload]> (<["/out/b.ply" := oldContent]> ∅)) ∅ 3 [].

(** The scenario of the specification: [{x,y,z}] with two rows and
    [{x,y,z,opacity}] with three. *)
Definition xyzTable : DataTable :=
  mkDataTable [f32 "x" [11; 12]; f32 "y" [21; 22]; f32 "z" [31; 32]]%Z.

Definition xyzOpacityTable : DataTable :=
  mkDataTable [f32 "x" [13; 14; 15]; f32 "y" [23; 24; 25]; f32 "z" [33; 34; 35];
               f32 "opacity" [7; 8; 9]]%Z.

Definition scenario : list DataTable := [xyzTable; xyzOpacityTable].

(** Codecs whose readers find a file with only [x, y, z]. *)
Definition xyzCodecs : Codecs :=
  sampleCodecs (Return (mkFileData [] [mkElement "vertex" xyzTable])) (payload, None).

(** A table that carries one identity twice, followed by a second table. *)
Definition twiceX : DataTable := mkDataTable [f32 "x" [1]; f32 "x" [2]]%Z.

Definition duplicated : list DataTable := [twiceX; mkDataTable [f32 "x" [3]%Z]].

(** A name whose last letters are U+212A KELVIN SIGN and [SPLAT]. *)
Definition kelvinName : string :=
  "/in/a." +:+ String "226"%char (String "132"%char (String "170"%char "SPLAT")).

(** A world in which the temporary path of ["/out/b.ply"] is taken. *)
Definition crowdedWorld : World :=
  mkWorld (<["/out/.b.ply.4242.1700000000000.abababababab.tmp" := oldContent]>
             (files sampleWorld)) ∅ 3 [].

(** Codecs that read a splat file and whose writers fail; codecs whose
    row-level transform filters every row out. *)
Definition fullDiskCodecs : Codecs :=
  sampleCodecs (Return splatFile) ([Byte.x70], Some (CodecError "disk full")).

Definition noRows (t : DataTable) : DataTable :=
  mkDataTable (map (λ c, mkColumn (name c) (mkTypedArray (ctor (data c)) []))
                   (columns t)).

Definition filteringCodecs : Codecs :=
  {| Param := unit;
     ProcessAction := unit;
     readMjs := λ _ _ _, Return splatFile;
     readKsplat := λ _ _, Return splatFile;
     readSplat := λ _ _, Return splatFile;
     readSog := λ _ _ _, Return splatFile;
     readPly := λ _ _, Return splatFile;
     readSpz := λ _ _, Return splatFile;
     isCompressedPly := λ _, false;
     decompressPly := λ _, Return splatTable;
     processDataTable := λ t _, Return (noRows t);
     writeSog := λ _ _ _ _ _ _, (payload, None);
     writeLod := λ _ _ _ _ _ _, (payload, None);
     writeCompressedPly := λ _ _ _, (payload, None);
     writePly := λ _ _ _, (payload, None) |}.

(* ===================================================================== *)
(** * Properties *)
(* ===================================================================== *)

(** ** Sequencing *)

Lemma bind_Return {A B} (a : A) (k : A → Outcome B) : (Return a ≫= k) = k a.
Proof. reflexivity. Qed.

Lemma bind_Throw {A B} (e : Error) (k : A → Outcome B) : (Throw e ≫= k) = Throw e.
Proof. reflexivity. Qed.

Lemma bind_Return_inv {A B} (m : Outcome A) (k : A → Outcome B) (b : B) :
  (m ≫= k) = Return b ↔ ∃ a, m = Return a ∧ k a = Return b.
Proof.
  destruct m as [a|e].
  - rewrite bind_Return. split; [by exists a | by intros (? & [= <-] & ?)].
  - rewrite bind_Throw. split; [done | by intros (? & ? & _)].
Qed.

(** ** Strings and the format resolver *)

Lemma endsWith_true (s suffix : string) :
  endsWith s suffix = true ↔ chars suffix `suffix_of` chars s.
Proof. unfold endsWith. apply bool_decide_eq_true. Qed.

Lemma endsWith_false (s suffix : string) :
  endsWith s suffix = false ↔ ¬ chars suffix `suffix_of` chars s.
Proof. unfold endsWith. apply bool_decide_eq_false. Qed.

(** Two suffixes of one string are comparable; when neither ends with the
    other, no string ends with both. *)
Lemma endsWith_exclusive (s a b : string) :
  endsWith a b = false → endsWith b a = false →
  endsWith s a = true → endsWith s b = false.
Proof.
  rewrite !endsWith_false, endsWith_true. intros Hab Hba Ha Hb.
  destruct (suffix_weak_total _ _ _ Ha Hb); tauto.
Qed.

Lemma toLowerCase_unfold (c1 : ascii) (s1 : string) :
  toLowerCase (String c1 s1) =
    match s1 with
    | EmptyString => String (lowerChar c1) EmptyString
    | String c2 s2 =>
        if isDottedI c1 c2 then
          String "i"%char (String "204"%char (String "135"%char (toLowerCase s2)))
        else
          match s2 with
          | EmptyString => String (lowerChar c1) (toLowerCase s1)
          | String c3 s3 =>
              if isKelvin c1 c2 c3 then String "k"%char (toLowerCase s3)
              else String (lowerChar c1) (toLowerCase s1)
          end
    end.
Proof. destruct s1 as [|c2 [|c3 s3]]; reflexivity. Qed.

(** A plain code unit is part of no multi-byte letter and is its own lower
    case. *)
Lemma plainChar_facts (d : ascii) :
  plainChar d = true →
  lowerChar d = d
  ∧ (∀ x, isDottedI d x = false) ∧ (∀ x, isDottedI x d = false)
  ∧ (∀ x y, isKelvin d x y = false) ∧ (∀ x y, isKelvin x d y = false)
  ∧ (∀ x y, isKelvin x y d = false).
Proof.
  unfold isDottedI, isKelvin.
  destruct d as [[] [] [] [] [] [] [] []]; intros Hplain; try discriminate Hplain;
    (split; [reflexivity|]); repeat split; intros;
    cbn; rewrite ?andb_false_r; reflexivity.
Qed.

Lemma toLowerCase_plain (s : string) : plain s = true → toLowerCase s = s.
Proof.
  unfold plain. induction s as [|d s IH]; [done|]. simpl list_ascii_of_string.
  simpl forallb. intros [Hd Hs]%andb_true_iff.
  destruct (plainChar_facts d Hd) as (Hlow & Hi & _ & Hk & _ & _).
  rewrite toLowerCase_unfold. destruct s as [|c2 s2]; [by rewrite Hlow|].
  rewrite Hi. destruct s2 as [|c3 s3]; [by rewrite Hlow, IH|].
  by rewrite Hk, Hlow, IH.
Qed.

(** Lower-casing a name that ends in a plain suffix leaves the suffix in
    place: no multi-byte letter straddles the boundary. *)
Lemma toLowerCase_app_plain (p suffix : string) :
  plain suffix = true → toLowerCase (p +:+ suffix) = toLowerCase p +:+ suffix.
Proof.
  intros Hplain.
  pose proof (toLowerCase_plain suffix Hplain) as Hlow.
  assert (Hhead : ∀ d rest, suffix = String d rest → plainChar d = true).
  { intros d rest ->. unfold plain in Hplain. simpl in Hplain.
    by apply andb_true_iff in Hplain as [? _]. }
  assert (Hgen : ∀ n q, String.length q ≤ n →
            toLowerCase (q +:+ suffix) = toLowerCase q +:+ suffix).
  { induction n as [|n IH]; intros q Hlen.
    - destruct q; [done|simpl in Hlen; lia].
    - destruct q as [|c1 [|c2 q2]]; [done| |].
      + (* the suffix starts right after [c1] *)
        change (toLowerCase (String c1 suffix) = String (lowerChar c1) suffix).
        destruct suffix as [|d1 rest]; [done|].
        destruct (plainChar_facts d1 (Hhead d1 rest eq_refl))
          as (_ & _ & Hi & _ & Hk & _).
        rewrite toLowerCase_unfold, Hi.
        destruct rest as [|d2 rest2]; rewrite ?Hk, Hlow; done.
      + change (toLowerCase (String c1 (String c2 (q2 +:+ suffix)))
                = toLowerCase (String c1 (String c2 q2)) +:+ suffix).
        rewrite (toLowerCase_unfold c1 (String c2 (q2 +:+ suffix))).
        rewrite (toLowerCase_unfold c1 (String c2 q2)).
        simpl in Hlen.
        destruct (isDottedI c1 c2).
        { rewrite (IH q2) by lia. done. }
        pose proof (IH (String c2 q2) ltac:(simpl; lia)) as IH1.
        change (String c2 q2 +:+ suffix) with (String c2 (q2 +:+ suffix)) in IH1.
        rewrite IH1.
        destruct q2 as [|c3 q3].
        * change ("" +:+ suffix) with suffix.
          destruct suffix as [|d1 rest]; [done|].
          destruct (plainChar_facts d1 (Hhead d1 rest eq_refl))
            as (_ & _ & _ & _ & _ & Hk).
          by rewrite Hk.
        * change (String c3 q3 +:+ suffix) with (String c3 (q3 +:+ suffix)).
          lazy beta iota.
          destruct (isKelvin c1 c2 c3); [|done].
          simpl in Hlen. rewrite (IH q3) by lia. done. }
  by apply (Hgen (String.length p)).
Qed.

Lemma chars_append (a b : string) : chars (a +:+ b) = chars a ++ chars b.
Proof.
  unfold chars. induction a as [|c a IH]; simpl; [done|]. by rewrite IH.
Qed.

Lemma chars_inj (a b : string) : chars a = chars b → a = b.
Proof.
  unfold chars. intros Heq.
  by rewrite <- (string_of_list_ascii_of_string a), Heq,
             string_of_list_ascii_of_string.
Qed.

(** A literal plain suffix survives [toLowerCase]. *)
Lemma endsWith_toLowerCase (s suffix : string) :
  plain suffix = true →
  endsWith s suffix = true → endsWith (toLowerCase s) suffix = true.
Proof.
  intros Hplain. rewrite !endsWith_true. intros [k Hk].
  assert (s = string_of_list_ascii k +:+ suffix) as ->.
  { apply chars_inj. rewrite chars_append, Hk. unfold chars at 2.
    by rewrite list_ascii_of_string_of_list_ascii. }
  rewrite toLowerCase_app_plain by done.
  exists (chars (toLowerCase (string_of_list_ascii k))). apply chars_append.
Qed.

Example getOutputFormat_compressed :
  getOutputFormat "Scene.Compressed.PLY" = Return FmtCompressedPly.
Proof. vm_compute. reflexivity. Qed.

Example getOutputFormat_lod :
  getOutputFormat "out/lod-meta.json" = Return FmtLod.
Proof. vm_compute. reflexivity. Qed.

Example getOutputFormat_meta :
  getOutputFormat "out/meta.json" = Return FmtSog.
Proof. vm_compute. reflexivity. Qed.

Example getOutputFormat_unknown :
  getOutputFormat "a.txt" = Throw (UnsupportedOutput "a.txt").
Proof. vm_compute. reflexivity. Qed.

Lemma getOutputFormat_refines (filename : string) :
  getOutputFormat filename = resolveOutputKind filename.
Proof.
  unfold getOutputFormat, resolveOutputKind, outputSuffixRules. simpl.
  repeat (destruct (endsWith _ _); simpl; try reflexivity).
Qed.

Ltac other_suffix H :=
  match type of H with
  | endsWith ?s ?a = true =>
      match goal with
      | |- context [endsWith s ?b] =>
          lazymatch b with
          | a => fail
          | _ => rewrite (endsWith_exclusive s a b eq_refl eq_refl H)
          end
      end
  end.

Lemma getOutputFormat_compressed_ply (filename : string) :
  endsWith (toLowerCase filename) ".compressed.ply" = true →
  getOutputFormat filename = Return FmtCompressedPly.
Proof.
  intros Hc. unfold getOutputFormat. repeat other_suffix Hc. by rewrite Hc.
Qed.

Lemma getOutputFormat_lod_meta (filename : string) :
  endsWith (toLowerCase filename) "lod-meta.json" = true →
  getOutputFormat filename = Return FmtLod.
Proof.
  intros Hl. unfold getOutputFormat. other_suffix Hl. by rewrite Hl.
Qed.

Lemma getOutputFormat_csv (filename : string) :
  endsWith (toLowerCase filename) ".csv" = true →
  getOutputFormat filename = Return FmtCsv.
Proof. intros Hc. unfold getOutputFormat. by rewrite Hc. Qed.

Lemma getOutputFormat_html (filename : string) :
  endsWith (toLowerCase filename) ".html" = true →
  getOutputFormat filename = Return FmtHtml.
Proof.
  intros Hh. unfold getOutputFormat. repeat other_suffix Hh. by rewrite Hh.
Qed.

(** C6. [getOutputFormat] is a first match over the ordered suffix rules
    [.csv], [lod-meta.json], ([.sog] or [meta.json]), [.compressed.ply],
    [.ply], [.html], tested on the lower-cased name: a name ending in
    [.compressed.ply] resolves to compressed-ply and not to ply, a name ending
    in [lod-meta.json] resolves to lod and not to sog, and a name that matches
    no suffix fails with the unsupported-output error. *)
Theorem getOutputFormat_first_match (filename : string) :
  getOutputFormat filename = resolveOutputKind filename
  ∧ (endsWith (toLowerCase filename) ".compressed.ply" = true →
     getOutputFormat filename = Return FmtCompressedPly
     ∧ getOutputFormat filename ≠ Return FmtPly)
  ∧ (endsWith (toLowerCase filename) "lod-meta.json" = true →
     getOutputFormat filename = Return FmtLod
     ∧ getOutputFormat filename ≠ Return FmtSog)
  ∧ ((∀ rule suffix, rule ∈ outputSuffixRules → suffix ∈ rule.1 →
        endsWith (toLowerCase filename) suffix = false) →
     getOutputFormat filename = Throw (UnsupportedOutput filename)).
Proof.
  split; [apply getOutputFormat_refines|].
  split; [|split].
  - intros Hc. by rewrite (getOutputFormat_compressed_ply _ Hc).
  - intros Hl. by rewrite (getOutputFormat_lod_meta _ Hl).
  - intros Hnone.
    assert (∀ sufs kind suffix, (sufs, kind) ∈ outputSuffixRules →
              suffix ∈ sufs → endsWith (toLowerCase filename) suffix = false)
      as Hno by (intros sufs kind suffix Hr Hs; exact (Hnone _ _ Hr Hs)).
    unfold getOutputFormat, outputSuffixRules in *.
    rewrite (Hno [".csv"] FmtCsv ".csv") by set_solver.
    rewrite (Hno ["lod-meta.json"] FmtLod "lod-meta.json") by set_solver.
    rewrite (Hno [".sog"; "meta.json"] FmtSog ".sog") by set_solver.
    rewrite (Hno [".sog"; "meta.json"] FmtSog "meta.json") by set_solver.
    rewrite (Hno [".compressed.ply"] FmtCompressedPly ".compressed.ply") by set_solver.
    rewrite (Hno [".ply"] FmtPly ".ply") by set_solver.
    rewrite (Hno [".html"] FmtHtml ".html") by set_solver.
    reflexivity.
Qed.

Lemma getOutputFormat_first_match_witness :
  getOutputFormat "x.compressed.ply" = Return FmtCompressedPly
  ∧ getOutputFormat "x.lod-meta.json" = Return FmtLod
  ∧ getOutputFormat "notes.txt" = Throw (UnsupportedOutput "notes.txt").
Proof.
  split; [|split].
  - apply (getOutputFormat_first_match "x.compressed.ply"). reflexivity.
  - apply (getOutputFormat_first_match "x.lod-meta.json"). reflexivity.
  - apply (getOutputFormat_first_match "notes.txt").
    intros rule suffix Hr Hs. unfold outputSuffixRules in Hr.
    repeat (apply elem_of_cons in Hr as [->|Hr];
            [simpl in Hs;
             repeat (apply elem_of_cons in Hs as [->|Hs]; [reflexivity|]);
             by apply elem_of_nil in Hs|]).
    by apply elem_of_nil in Hr.
Defined.

(** The same for names written with their literal lower-case suffix. *)
Corollary getOutputFormat_literal_suffix (filename : string) :
  (endsWith filename ".compressed.ply" = true →
   getOutputFormat filename = Return FmtCompressedPly)
  ∧ (endsWith filename "lod-meta.json" = true →
     getOutputFormat filename = Return FmtLod).
Proof.
  split; intros Hs; apply endsWith_toLowerCase in Hs; try reflexivity.
  - by apply getOutputFormat_compressed_ply.
  - by apply getOutputFormat_lod_meta.
Qed.

(** ** The schema validator *)

Lemma hasColumn_spec (t : DataTable) (n : string) :
  hasColumn t n = true ↔ n ∈ name <$> columns t.
Proof.
  unfold hasColumn. rewrite existsb_exists, list_elem_of_fmap. split.
  - intros (c & Hin & Heq). apply String.eqb_eq in Heq.
    exists c. split; [done|]. by apply list_elem_of_In.
  - intros (c & -> & Hin). exists c. split; [by apply list_elem_of_In|].
    apply String.eqb_refl.
Qed.

Lemma isGSDataTable_true (t : DataTable) :
  isGSDataTable t = true ↔ ∀ n, n ∈ gsColumns → hasColumn t n = true.
Proof.
  unfold isGSDataTable.
  destruct (forallb _ gsColumns) eqn:Hall; simpl.
  - rewrite forallb_forall in Hall. split; [|done].
    intros _ n Hn. apply Hall. by apply list_elem_of_In.
  - split; [done|]. intros Hn. rewrite <- Hall.
    apply forallb_forall. intros n Hin. apply Hn. by apply list_elem_of_In.
Qed.

Lemma gsColumns_NoDup : NoDup gsColumns.
Proof. apply (bool_decide_unpack _). vm_compute. exact I. Qed.

Example isGSDataTable_splatTable : isGSDataTable splatTable = true.
Proof. vm_compute. reflexivity. Qed.

Example isGSDataTable_xyz :
  isGSDataTable (mkDataTable [f32 "x" []; f32 "y" []; f32 "z" []]) = false.
Proof. vm_compute. reflexivity. Qed.

(** C5. [isGSDataTable] returns true exactly when every one of the
    fourteen required names [x, y, z, rot_0..rot_3, scale_0..scale_2,
    f_dc_0..f_dc_2, opacity] is the name of a column, and false as soon as one
    of them is absent; the answer does not depend on the order of the
    columns, and extra columns do not change it. *)
Theorem isGSDataTable_schema (t : DataTable) :
  length gsColumns = 14 ∧ NoDup gsColumns
  ∧ (isGSDataTable t = true ↔ ∀ n, n ∈ gsColumns → n ∈ name <$> columns t)
  ∧ (∀ n, n ∈ gsColumns → n ∉ name <$> columns t → isGSDataTable t = false)
  ∧ (∀ t', columns t ≡ₚ columns t' → isGSDataTable t' = isGSDataTable t)
  ∧ (∀ extra, isGSDataTable t = true →
       isGSDataTable (mkDataTable (columns t ++ extra)) = true)
  ∧ (∀ extra, (∀ c, c ∈ extra → name c ∉ gsColumns) →
       isGSDataTable (mkDataTable (columns t ++ extra)) = isGSDataTable t).
Proof.
  assert (Hiff : ∀ u, isGSDataTable u = true ↔
                      ∀ n, n ∈ gsColumns → n ∈ name <$> columns u).
  { intros u. rewrite isGSDataTable_true.
    split; intros Hn n Hin; apply hasColumn_spec, Hn, Hin. }
  assert (Hext : ∀ u u', (∀ n, n ∈ gsColumns →
                            (n ∈ name <$> columns u ↔ n ∈ name <$> columns u')) →
                         isGSDataTable u = isGSDataTable u').
  { intros u u' Hsame.
    destruct (isGSDataTable u) eqn:Hu, (isGSDataTable u') eqn:Hu'; try done.
    - rewrite <- Hu'. symmetry. apply Hiff. intros n Hn.
      apply Hsame; [done|]. by apply Hiff.
    - rewrite <- Hu. apply Hiff. intros n Hn.
      apply Hsame; [done|]. by apply Hiff. }
  split; [reflexivity|]. split; [apply gsColumns_NoDup|].
  split; [apply Hiff|]. split; [|split; [|split]].
  - intros n Hn Habs. destruct (isGSDataTable t) eqn:Ht; [|done].
    exfalso. apply Habs. by apply Hiff.
  - intros t' Hperm. apply Hext. intros n _. by rewrite Hperm.
  - intros extra Ht. apply Hiff. intros n Hn. simpl.
    rewrite fmap_app, elem_of_app. left. by apply Hiff.
  - intros extra Hextra. apply Hext. intros n Hn. simpl.
    rewrite fmap_app, elem_of_app. split; [|tauto].
    intros [Hl|Hr]; [done|]. apply list_elem_of_fmap in Hr as (c & -> & Hc).
    by destruct (Hextra c Hc).
Qed.

Lemma isGSDataTable_schema_witness :
  isGSDataTable (mkDataTable [f32 "x" []; f32 "y" []; f32 "z" []]) = false.
Proof.
  apply (proj1 (proj2 (proj2 (proj2 (isGSDataTable_schema _)))) "opacity").
  - apply (bool_decide_unpack _). vm_compute. exact I.
  - apply (bool_decide_unpack _). vm_compute. exact I.
Defined.

(** The required names are not thirteen: no list of thirteen names
    characterises the tables that [isGSDataTable] accepts. *)
Lemma isGSDataTable_not_thirteen :
  ¬ ∃ required : list string,
      length required = 13
      ∧ ∀ t, isGSDataTable t = true ↔ ∀ n, n ∈ required → hasColumn t n = true.
Proof.
  intros (required & Hlen & Hreq).
  pose (t := mkDataTable (map (λ n, f32 n []) required)).
  assert (Hnames : name <$> map (λ n, f32 n []) required = required).
  { clear. induction required as [|n l IH]; [done|].
    simpl map. rewrite fmap_cons. simpl. by rewrite IH. }
  assert (Ht : isGSDataTable t = true).
  { apply Hreq. intros n Hn. apply hasColumn_spec. simpl. by rewrite Hnames. }
  assert (Hsub : gsColumns ⊆ required).
  { intros n Hn. pose proof (proj1 (isGSDataTable_true t) Ht n Hn) as Hh.
    apply hasColumn_spec in Hh. simpl in Hh. by rewrite Hnames in Hh. }
  pose proof (submseteq_length _ _ (NoDup_submseteq _ _ gsColumns_NoDup Hsub)) as Hle.
  rewrite Hlen in Hle. simpl in Hle. lia.
Qed.

(** ** The combiner *)

Section Combine.
Implicit Types (R cols : list Column) (c : Column) (ts : list DataTable).

Lemma sameIdentity_true (a b : Column) :
  sameIdentity a b = true ↔ identity a = identity b.
Proof.
  unfold sameIdentity, identity. rewrite bool_decide_eq_true.
  split; [intros [-> ->]; done | intros [= -> ->]; done].
Qed.

Lemma sameIdentity_false (a b : Column) :
  sameIdentity a b = false ↔ identity a ≠ identity b.
Proof.
  rewrite <- sameIdentity_true. destruct (sameIdentity a b); split; congruence.
Qed.

(** [findMatchingColumn] returns the first position carrying the identity. *)
Lemma findMatchingColumn_Some cols c i :
  findMatchingColumn cols c = Some i ↔
    (∃ c', cols !! i = Some c' ∧ identity c' = identity c)
    ∧ ∀ j c', j < i → cols !! j = Some c' → identity c' ≠ identity c.
Proof.
  revert i. induction cols as [|h cols IH]; intros i; simpl.
  - split; [done|]. by intros [(c' & Hc' & _) _].
  - destruct (sameIdentity h c) eqn:Hh.
    + apply sameIdentity_true in Hh. split.
      * intros [= <-]. split; [by exists h|]. intros j c' Hj. lia.
      * intros [_ Hfirst]. destruct i as [|i]; [done|].
        by destruct (Hfirst 0 h ltac:(lia) eq_refl).
    + apply sameIdentity_false in Hh. split.
      * intros Hfind. apply fmap_Some in Hfind as (i' & Hi' & ->).
        apply IH in Hi' as [Hex Hfirst]. split; [done|].
        intros [|j] c' Hj Hc'; simpl in Hc'; [by simplify_eq|].
        apply (Hfirst j c'); [lia|done].
      * intros [(c' & Hc' & Hid) Hfirst]. destruct i as [|i]; simpl in Hc'.
        { by simplify_eq. }
        apply fmap_Some. exists i. split; [|done]. apply IH. split; [by exists c'|].
        intros j c'' Hj Hc''. apply (Hfirst (S j) c''); [lia|done].
Qed.

Lemma findMatchingColumn_None cols c :
  findMatchingColumn cols c = None ↔ identity c ∉ identity <$> cols.
Proof.
  induction cols as [|h cols IH].
  - split; [intros _; apply not_elem_of_nil | done].
  - rewrite fmap_cons, not_elem_of_cons. simpl.
    destruct (sameIdentity h c) eqn:Hh.
    + apply sameIdentity_true in Hh. split; [done|]. intros [Hne _]. congruence.
    + apply sameIdentity_false in Hh. rewrite fmap_None, IH.
      split; [intros ?; split; congruence | tauto].
Qed.

Lemma findMatchingColumn_is_Some cols c :
  identity c ∈ identity <$> cols → is_Some (findMatchingColumn cols c).
Proof.
  intros Hin. destruct (findMatchingColumn cols c) eqn:Hf; [by eexists|].
  by apply findMatchingColumn_None in Hf.
Qed.

(** The search only looks at identities. *)
Lemma findMatchingColumn_ext cols cols' c c' :
  identity <$> cols = identity <$> cols' → identity c = identity c' →
  findMatchingColumn cols c = findMatchingColumn cols' c'.
Proof.
  intros Hids Hc. revert cols' Hids.
  induction cols as [|h cols IH]; intros [|h' cols'] Hids; try done.
  rewrite !fmap_cons in Hids.
  assert (Hh : identity h = identity h') by congruence.
  assert (Hrest : identity <$> cols = identity <$> cols') by congruence.
  simpl. rewrite (IH _ Hrest).
  destruct (sameIdentity h c) eqn:H1, (sameIdentity h' c') eqn:H2; try done.
  - apply sameIdentity_true in H1. apply sameIdentity_false in H2. congruence.
  - apply sameIdentity_false in H1. apply sameIdentity_true in H2. congruence.
Qed.

(** [set] overwrites the window [[o, o + length src)] and nothing else. *)
Lemma set_window_length (tgt src : list Z) (o : nat) :
  o + length src ≤ length tgt →
  length (take o tgt ++ src ++ drop (o + length src) tgt) = length tgt.
Proof. intros Hfit. rewrite !length_app, length_take, length_drop. lia. Qed.

Lemma set_window_lookup (tgt src : list Z) (o r : nat) :
  o + length src ≤ length tgt →
  (take o tgt ++ src ++ drop (o + length src) tgt) !! r =
    if decide (o ≤ r < o + length src) then src !! (r - o) else tgt !! r.
Proof.
  intros Hfit.
  assert (Hlt : length (take o tgt) = o) by (rewrite length_take; lia).
  destruct (decide (r < o)) as [Hr|Hr].
  - rewrite lookup_app_l by lia. rewrite lookup_take_lt by lia.
    case_decide; [lia|done].
  - rewrite lookup_app_r by lia. rewrite Hlt.
    destruct (decide (r - o < length src)) as [Hs|Hs].
    + rewrite lookup_app_l by lia. case_decide; [done|lia].
    + rewrite lookup_app_r by lia. rewrite lookup_drop.
      case_decide; [lia|]. f_equal. lia.
Qed.

Lemma typedArraySet_Return (tgt src d : TypedArray) (o : nat) :
  typedArraySet tgt src o = Return d ↔
    o + length (cells src) ≤ length (cells tgt)
    ∧ d = mkTypedArray (ctor tgt)
            (take o (cells tgt) ++ cells src
             ++ drop (o + length (cells src)) (cells tgt)).
Proof.
  unfold typedArraySet. case_decide; split.
  - intros [= <-]. done.
  - intros [_ ->]. done.
  - done.
  - intros [? _]. lia.
Qed.

(** What one [targetColumn.data.set(column.data, rowOffset)] does. *)
Lemma copyColumn_Return R c o R' :
  copyColumn R c o = Return R' ↔
    ∃ i tgt d,
      findMatchingColumn R c = Some i ∧ R !! i = Some tgt
      ∧ typedArraySet (data tgt) (data c) o = Return d
      ∧ R' = <[i := mkColumn (name tgt) d]> R.
Proof.
  unfold copyColumn. split.
  - destruct (findMatchingColumn R c) as [i|]; [|done].
    destruct (R !! i) as [tgt|] eqn:Htgt; [|done].
    destruct (typedArraySet (data tgt) (data c) o) as [d|] eqn:Hset; [|done].
    rewrite bind_Return. intros [= <-]. by exists i, tgt, d.
  - intros (i & tgt & d & -> & -> & -> & ->). done.
Qed.

Lemma copyColumn_identities R c o R' :
  copyColumn R c o = Return R' → identity <$> R' = identity <$> R.
Proof.
  intros (i & tgt & d & _ & Htgt & Hset & ->)%copyColumn_Return.
  apply typedArraySet_Return in Hset as [_ ->].
  rewrite list_fmap_insert. apply list_insert_id.
  by rewrite list_lookup_fmap, Htgt.
Qed.

Lemma copyColumn_lengths R c o R' :
  copyColumn R c o = Return R' →
  (λ col, length (cells (data col))) <$> R' = (λ col, length (cells (data col))) <$> R.
Proof.
  intros (i & tgt & d & _ & Htgt & Hset & ->)%copyColumn_Return.
  apply typedArraySet_Return in Hset as [Hfit ->].
  rewrite list_fmap_insert. apply list_insert_id. simpl.
  rewrite set_window_length by done.
  by rewrite list_lookup_fmap, Htgt.
Qed.

Lemma copyColumn_cell R c o R' i k r :
  copyColumn R c o = Return R' → findMatchingColumn R c = Some i →
  cell R' k r =
    if decide (k = i ∧ o ≤ r < o + length (cells (data c)))
    then cells (data c) !! (r - o) else cell R k r.
Proof.
  intros (i' & tgt & d & Hfind & Htgt & Hset & ->)%copyColumn_Return Hi.
  assert (i' = i) as -> by congruence.
  apply typedArraySet_Return in Hset as [Hfit ->].
  unfold cell. destruct (decide (k = i)) as [->|Hk].
  - rewrite list_lookup_insert_eq by (by eapply lookup_lt_Some).
    rewrite Htgt. simpl. rewrite set_window_lookup by done.
    repeat case_decide; try done; tauto.
  - rewrite list_lookup_insert_ne by done. case_decide; [tauto|done].
Qed.

Lemma copyColumn_succeeds R c o total :
  identity c ∈ identity <$> R →
  Forall (λ col, length (cells (data col)) = total) R →
  o + length (cells (data c)) ≤ total →
  ∃ R', copyColumn R c o = Return R'.
Proof.
  intros Hin Hlen Hfit.
  destruct (findMatchingColumn_is_Some _ _ Hin) as [i Hi].
  pose proof Hi as ((tgt & Htgt & _) & _)%findMatchingColumn_Some.
  pose proof (proj1 (Forall_lookup _ _) Hlen i tgt Htgt) as Ht. simpl in Ht.
  eexists. apply copyColumn_Return. exists i, tgt. eexists.
  split; [done|]. split; [done|]. split; [|done].
  apply typedArraySet_Return. split; [lia|done].
Qed.

Lemma lengths_Forall R R' total :
  (λ col, length (cells (data col))) <$> R' = (λ col, length (cells (data col))) <$> R →
  Forall (λ col, length (cells (data col)) = total) R →
  Forall (λ col, length (cells (data col)) = total) R'.
Proof.
  intros Heq HR.
  apply (Forall_fmap (λ col, length (cells (data col))) (λ n, n = total)).
  rewrite Heq. by apply Forall_fmap.
Qed.

(** *** The inner loop *)

Lemma copyColumns_cons_inv R c cols o R' :
  copyColumns R (c :: cols) o = Return R' ↔
    ∃ R1, copyColumn R c o = Return R1 ∧ copyColumns R1 cols o = Return R'.
Proof. simpl. apply bind_Return_inv. Qed.

Lemma copyColumns_app_inv R a b o R' :
  copyColumns R (a ++ b) o = Return R' ↔
    ∃ R1, copyColumns R a o = Return R1 ∧ copyColumns R1 b o = Return R'.
Proof.
  revert R. induction a as [|c a IH]; intros R.
  - simpl. split; [by exists R | by intros (? & [= <-] & ?)].
  - rewrite <- app_comm_cons, copyColumns_cons_inv. split.
    + intros (R1 & Hc & (R2 & Ha & Hb)%IH). exists R2. split; [|done].
      apply copyColumns_cons_inv. by exists R1.
    + intros (R2 & (R1 & Hc & Ha)%copyColumns_cons_inv & Hb).
      exists R1. split; [done|]. apply IH. by exists R2.
Qed.

Lemma copyColumns_identities R cols o R' :
  copyColumns R cols o = Return R' → identity <$> R' = identity <$> R.
Proof.
  revert R. induction cols as [|c cols IH]; intros R.
  - by intros [= <-].
  - intros (R1 & Hc & Hrest)%copyColumns_cons_inv.
    rewrite (IH _ Hrest). by eapply copyColumn_identities.
Qed.

Lemma copyColumns_lengths R cols o R' :
  copyColumns R cols o = Return R' →
  (λ col, length (cells (data col))) <$> R' = (λ col, length (cells (data col))) <$> R.
Proof.
  revert R. induction cols as [|c cols IH]; intros R.
  - by intros [= <-].
  - intros (R1 & Hc & Hrest)%copyColumns_cons_inv.
    rewrite (IH _ Hrest). by eapply copyColumn_lengths.
Qed.

(** A cell that no column of the table is copied onto keeps its value. *)
Lemma copyColumns_frame R cols o R' k r :
  copyColumns R cols o = Return R' →
  (∀ c, c ∈ cols → findMatchingColumn R c = Some k →
        ¬ (o ≤ r < o + length (cells (data c)))) →
  cell R' k r = cell R k r.
Proof.
  revert R. induction cols as [|c cols IH]; intros R.
  - by intros [= <-].
  - intros (R1 & Hc & Hrest)%copyColumns_cons_inv Hfree.
    rewrite (IH _ Hrest).
    + pose proof Hc as (i & _ & _ & Hi & _)%copyColumn_Return.
      rewrite (copyColumn_cell _ _ _ _ _ k r Hc Hi).
      case_decide as Hhit; [|done]. destruct Hhit as [-> Hwin].
      destruct (Hfree c ltac:(left) Hi Hwin).
    + intros c' Hc' Hfind. apply Hfree; [by right|].
      rewrite <- Hfind. symmetry. apply findMatchingColumn_ext; [|done].
      by eapply copyColumn_identities.
Qed.

(** The last column of the table with a given identity is what the matching
    output column holds at the table's rows. *)
Lemma copyColumns_written R pre c post o R' k x :
  copyColumns R (pre ++ c :: post) o = Return R' →
  (∀ c', c' ∈ post → identity c' ≠ identity c) →
  findMatchingColumn R c = Some k →
  x < length (cells (data c)) →
  cell R' k (o + x) = cells (data c) !! x.
Proof.
  intros (R1 & Hpre & (R2 & Hc & Hpost)%copyColumns_cons_inv)%copyColumns_app_inv
         Hlast Hk Hx.
  assert (Hk1 : findMatchingColumn R1 c = Some k).
  { rewrite <- Hk. apply findMatchingColumn_ext; [|done].
    by eapply copyColumns_identities. }
  assert (Hk2 : findMatchingColumn R2 c = Some k).
  { rewrite <- Hk1. apply findMatchingColumn_ext; [|done].
    by eapply copyColumn_identities. }
  rewrite (copyColumns_frame _ _ _ _ k (o + x) Hpost).
  - rewrite (copyColumn_cell _ _ _ _ _ k (o + x) Hc Hk1).
    case_decide as Hhit; [|lia]. f_equal. lia.
  - intros c' Hc' Hfind _.
    apply findMatchingColumn_Some in Hfind as ((t1 & Ht1 & Hid1) & _).
    apply findMatchingColumn_Some in Hk2 as ((t2 & Ht2 & Hid2) & _).
    apply (Hlast c' Hc'). congruence.
Qed.

Lemma copyColumns_succeeds R cols o total :
  (∀ c, c ∈ cols → identity c ∈ identity <$> R) →
  Forall (λ col, length (cells (data col)) = total) R →
  (∀ c, c ∈ cols → o + length (cells (data c)) ≤ total) →
  ∃ R', copyColumns R cols o = Return R'.
Proof.
  revert R. induction cols as [|c cols IH]; intros R Hcover Hlen Hfit.
  - by exists R.
  - destruct (copyColumn_succeeds R c o total) as [R1 Hc];
      [apply Hcover; left | done | apply Hfit; left |].
    destruct (IH R1) as [R' Hrest].
    + intros c' Hc'. rewrite (copyColumn_identities _ _ _ _ Hc).
      apply Hcover. by right.
    + eapply lengths_Forall; [|done]. by eapply copyColumn_lengths.
    + intros c' Hc'. apply Hfit. by right.
    + exists R'. apply copyColumns_cons_inv. by exists R1.
Qed.

(** *** Row offsets *)

Lemma totalRows_sum ts : totalRows ts = sum_list (numRows <$> ts).
Proof.
  unfold totalRows.
  assert (∀ acc, fold_left (λ sum t, sum + numRows t) ts acc
                 = acc + sum_list (numRows <$> ts)) as Hgen.
  { induction ts as [|t ts IH]; intros acc; csimpl; [lia|]. rewrite IH. lia. }
  apply Hgen.
Qed.

Lemma rowOffset_0 ts : rowOffset ts 0 = 0.
Proof. unfold rowOffset. by rewrite take_0. Qed.

Lemma rowOffset_S t ts i : rowOffset (t :: ts) (S i) = numRows t + rowOffset ts i.
Proof. reflexivity. Qed.

Lemma rowOffset_next ts i j t :
  ts !! i = Some t → i < j → rowOffset ts i + numRows t ≤ rowOffset ts j.
Proof.
  revert i j. induction ts as [|h ts IH]; intros i j Hi Hij; [done|].
  destruct j as [|j]; [lia|]. rewrite rowOffset_S.
  destruct i as [|i]; simpl in Hi.
  - simplify_eq. rewrite rowOffset_0. lia.
  - rewrite rowOffset_S. pose proof (IH i j Hi ltac:(lia)). lia.
Qed.

Lemma rowOffset_total ts i t :
  ts !! i = Some t → rowOffset ts i + numRows t ≤ sum_list (numRows <$> ts).
Proof.
  revert i. induction ts as [|h ts IH]; intros i Hi; [done|].
  destruct i as [|i]; simpl in Hi.
  - simplify_eq. rewrite rowOffset_0. csimpl. lia.
  - rewrite rowOffset_S. pose proof (IH i Hi). csimpl. lia.
Qed.

(** *** The outer loop *)

Lemma copyTables_cons_inv R t ts o R' :
  copyTables R (t :: ts) o = Return R' ↔
    ∃ R1, copyColumns R (columns t) o = Return R1
          ∧ copyTables R1 ts (o + numRows t) = Return R'.
Proof. simpl. apply bind_Return_inv. Qed.

Lemma copyTables_app_inv R a b o R' :
  copyTables R (a ++ b) o = Return R' ↔
    ∃ R1, copyTables R a o = Return R1
          ∧ copyTables R1 b (o + sum_list (numRows <$> a)) = Return R'.
Proof.
  revert R o. induction a as [|t a IH]; intros R o.
  - simpl. rewrite Nat.add_0_r. split; [by exists R | by intros (? & [= <-] & ?)].
  - rewrite <- app_comm_cons, copyTables_cons_inv.
    rewrite fmap_cons. simpl sum_list. rewrite Nat.add_assoc. split.
    + intros (R1 & Hc & (R2 & Ha & Hb)%IH). exists R2. split; [|done].
      apply copyTables_cons_inv. by exists R1.
    + intros (R2 & (R1 & Hc & Ha)%copyTables_cons_inv & Hb).
      exists R1. split; [done|]. apply IH. by exists R2.
Qed.

Lemma copyTables_identities R ts o R' :
  copyTables R ts o = Return R' → identity <$> R' = identity <$> R.
Proof.
  revert R o. induction ts as [|t ts IH]; intros R o.
  - by intros [= <-].
  - intros (R1 & Hc & Hrest)%copyTables_cons_inv.
    rewrite (IH _ _ Hrest). by eapply copyColumns_identities.
Qed.

Lemma copyTables_lengths R ts o R' :
  copyTables R ts o = Return R' →
  (λ col, length (cells (data col))) <$> R' = (λ col, length (cells (data col))) <$> R.
Proof.
  revert R o. induction ts as [|t ts IH]; intros R o.
  - by intros [= <-].
  - intros (R1 & Hc & Hrest)%copyTables_cons_inv.
    rewrite (IH _ _ Hrest). by eapply copyColumns_lengths.
Qed.

(** A cell outside the windows of the columns copied onto its column keeps
    its value through the whole copy phase. *)
Lemma copyTables_frame R ts o R' k r :
  copyTables R ts o = Return R' →
  (∀ i t c, ts !! i = Some t → c ∈ columns t → findMatchingColumn R c = Some k →
     ¬ (o + rowOffset ts i ≤ r < o + rowOffset ts i + length (cells (data c)))) →
  cell R' k r = cell R k r.
Proof.
  revert R o. induction ts as [|t ts IH]; intros R o.
  - by intros [= <-].
  - intros (R1 & Hc & Hrest)%copyTables_cons_inv Hfree.
    rewrite (IH _ _ Hrest).
    + apply (copyColumns_frame _ _ _ _ _ _ Hc). intros c Hin Hfind.
      pose proof (Hfree 0 t c eq_refl Hin Hfind) as Hw.
      rewrite rowOffset_0 in Hw. lia.
    + intros i t' c Hi Hin Hfind.
      assert (Hfind' : findMatchingColumn R c = Some k).
      { rewrite <- Hfind. apply findMatchingColumn_ext; [|done].
        symmetry. by eapply copyColumns_identities. }
      pose proof (Hfree (S i) t' c Hi Hin Hfind') as Hw.
      rewrite rowOffset_S in Hw. lia.
Qed.

Lemma copyTables_frame_before R ts o R' k r :
  copyTables R ts o = Return R' → r < o → cell R' k r = cell R k r.
Proof.
  intros Hcopy Hr. apply (copyTables_frame _ _ _ _ _ _ Hcopy).
  intros i t c _ _ _. lia.
Qed.

Lemma copyTables_succeeds R ts o total :
  (∀ t c, t ∈ ts → c ∈ columns t → identity c ∈ identity <$> R) →
  Forall (λ col, length (cells (data col)) = total) R →
  Forall wfTable ts →
  o + sum_list (numRows <$> ts) ≤ total →
  ∃ R', copyTables R ts o = Return R'.
Proof.
  revert R o. induction ts as [|t ts IH]; intros R o Hcover Hlen Hwf Hfit.
  - by exists R.
  - apply Forall_cons in Hwf as [Hwt Hwf]. csimpl in Hfit.
    destruct (copyColumns_succeeds R (columns t) o total) as [R1 Hc].
    + intros c Hin. apply (Hcover t c); [left|done].
    + done.
    + intros c Hin. unfold wfTable in Hwt.
      rewrite Forall_forall in Hwt. rewrite (Hwt c Hin). lia.
    + destruct (IH R1 (o + numRows t)) as [R' Hrest].
      * intros t' c Ht' Hin. rewrite (copyColumns_identities _ _ _ _ Hc).
        apply (Hcover t' c); [by right|done].
      * eapply lengths_Forall; [|done]. by eapply copyColumns_lengths.
      * done.
      * lia.
      * exists R'. apply copyTables_cons_inv. by exists R1.
Qed.

(** *** The unified column list *)

Lemma pushIfNew_subseteq cols c :
  identity <$> cols ⊆ identity <$> pushIfNew cols c.
Proof.
  unfold pushIfNew. destruct (findMatchingColumn cols c); [done|].
  rewrite fmap_app. intros x Hx. apply elem_of_app. by left.
Qed.

Lemma pushIfNew_elem cols c : identity c ∈ identity <$> pushIfNew cols c.
Proof.
  unfold pushIfNew. destruct (findMatchingColumn cols c) eqn:Hfind.
  - destruct (decide (identity c ∈ identity <$> cols)) as [|Hno]; [done|].
    apply findMatchingColumn_None in Hno. congruence.
  - rewrite fmap_app. apply elem_of_app. right. by left.
Qed.

Lemma fold_pushIfNew_cover cs cols :
  identity <$> cols ⊆ identity <$> fold_left pushIfNew cs cols
  ∧ ∀ c, c ∈ cs → identity c ∈ identity <$> fold_left pushIfNew cs cols.
Proof.
  revert cols. induction cs as [|h cs IH]; intros cols; simpl.
  - split; [done|]. intros c Hc. by apply elem_of_nil in Hc.
  - destruct (IH (pushIfNew cols h)) as [Hsub Hin]. split.
    + etrans; [apply pushIfNew_subseteq|done].
    + intros c [->|Hc]%elem_of_cons; [|by apply Hin].
      apply Hsub, pushIfNew_elem.
Qed.

Lemma uniqueColumns_cover first others t c :
  t ∈ first :: others → c ∈ columns t →
  identity c ∈ identity <$> uniqueColumns first others.
Proof.
  unfold uniqueColumns.
  assert (Hgen : ∀ init,
    identity <$> init ⊆
      identity <$> fold_left (λ cols t, fold_left pushIfNew (columns t) cols) others init
    ∧ ∀ t c, t ∈ others → c ∈ columns t →
        identity c ∈
          identity <$> fold_left (λ cols t, fold_left pushIfNew (columns t) cols) others init).
  { induction others as [|h others IH]; intros init; simpl.
    - split; [done|]. intros ? ? Ht. by apply elem_of_nil in Ht.
    - destruct (IH (fold_left pushIfNew (columns h) init)) as [Hsub Hin].
      destruct (fold_pushIfNew_cover (columns h) init) as [Hsub' Hin'].
      split; [by etrans|].
      intros t' c' [->|Ht']%elem_of_cons Hc'; [|by eapply Hin].
      by apply Hsub, Hin'. }
  destruct (Hgen (columns first)) as [Hsub Hin].
  intros [->|Ht]%elem_of_cons Hc; [|by eapply Hin].
  apply Hsub. by apply list_elem_of_fmap_2.
Qed.

Lemma freshColumn_identities total cols :
  identity <$> (freshColumn total <$> cols) = identity <$> cols.
Proof. rewrite <- list_fmap_compose. by apply list_fmap_ext. Qed.

Lemma freshColumn_lengths total cols :
  Forall (λ col, length (cells (data col)) = total) (freshColumn total <$> cols).
Proof.
  apply Forall_fmap, Forall_forall. intros c _. simpl. apply length_replicate.
Qed.

Lemma freshColumn_cell total cols k r :
  k < length cols → r < total → cell (freshColumn total <$> cols) k r = Some 0%Z.
Proof.
  intros Hk Hr. unfold cell. rewrite list_lookup_fmap.
  destruct (lookup_lt_is_Some_2 cols k Hk) as [c ->]. simpl.
  by apply lookup_replicate_2.
Qed.

(** *** [combine] on two or more tables *)

Lemma combine_general first second rest :
  combine (first :: second :: rest) =
    (copyTables (freshColumn (totalRows (first :: second :: rest))
                   <$> uniqueColumns first (second :: rest))
                (first :: second :: rest) 0
     ≫= λ copied, Return (mkDataTable copied)).
Proof. reflexivity. Qed.

Lemma combine_general_Return ts r :
  2 ≤ length ts → combine ts = Return r →
  ∃ first others,
    ts = first :: others
    ∧ copyTables (freshColumn (sum_list (numRows <$> ts)) <$> uniqueColumns first others)
                 ts 0 = Return (columns r).
Proof.
  destruct ts as [|first [|second rest]]; simpl length; [lia..|].
  intros _. rewrite combine_general, totalRows_sum.
  intros (copied & Hcopy & [= <-])%bind_Return_inv.
  by exists first, (second :: rest).
Qed.

Lemma combine_general_succeeds ts :
  2 ≤ length ts → Forall wfTable ts → ∃ r, combine ts = Return r.
Proof.
  destruct ts as [|first [|second rest]]; simpl length; [lia..|].
  intros _ Hwf. rewrite combine_general, totalRows_sum.
  destruct (copyTables_succeeds
              (freshColumn (sum_list (numRows <$> first :: second :: rest))
                 <$> uniqueColumns first (second :: rest))
              (first :: second :: rest) 0
              (sum_list (numRows <$> first :: second :: rest))) as [R' HR'].
  - intros t c Ht Hc. rewrite freshColumn_identities.
    by eapply uniqueColumns_cover.
  - apply freshColumn_lengths.
  - done.
  - lia.
  - exists (mkDataTable R'). by rewrite HR'.
Qed.

Lemma cell_lookup R k r out :
  R !! k = Some out → cell R k r = cells (data out) !! r.
Proof. intros Hk. unfold cell. by rewrite Hk. Qed.

Lemma sum_list_no_rows ts :
  (∀ t, t ∈ ts → columns t = []) → sum_list (numRows <$> ts) = 0.
Proof.
  induction ts as [|t ts IH]; intros Hnone; [done|]. csimpl.
  rewrite IH by (intros t' Ht'; apply Hnone; by right).
  unfold numRows. by rewrite (Hnone t ltac:(left)).
Qed.

Lemma combine_general_numRows ts r :
  2 ≤ length ts → combine ts = Return r → numRows r = sum_list (numRows <$> ts).
Proof.
  intros Hlen Hr.
  destruct (combine_general_Return ts r Hlen Hr) as (first & others & -> & Hcopy).
  pose proof (lengths_Forall _ _ _ (copyTables_lengths _ _ _ _ Hcopy)
                (freshColumn_lengths _ _)) as Hall.
  pose proof (copyTables_identities _ _ _ _ Hcopy) as Hids.
  rewrite freshColumn_identities in Hids.
  unfold numRows at 1. destruct (columns r) as [|c cols] eqn:Hcols.
  - symmetry. apply sum_list_no_rows. intros t Ht.
    destruct (columns t) as [|c cs] eqn:Hc; [done|].
    pose proof (uniqueColumns_cover first others t c Ht) as Hin.
    rewrite Hc, <- Hids in Hin. specialize (Hin ltac:(left)).
    by apply elem_of_nil in Hin.
  - by apply Forall_cons in Hall as [Hc _].
Qed.

Lemma combine_general_preserves ts r i t pre c post :
  2 ≤ length ts → Forall wfTable ts → combine ts = Return r →
  ts !! i = Some t → columns t = pre ++ c :: post →
  (∀ c', c' ∈ post → identity c' ≠ identity c) →
  ∃ k out,
    findMatchingColumn (columns r) c = Some k ∧ columns r !! k = Some out
    ∧ identity out = identity c
    ∧ ∀ x, x < numRows t →
        cells (data out) !! (rowOffset ts i + x) = cells (data c) !! x.
Proof.
  intros Hlen Hwf Hr Hi Hcols Hlast.
  destruct (combine_general_Return ts r Hlen Hr) as (first & others & Hts & Hcopy).
  set (R0 := freshColumn (sum_list (numRows <$> ts)) <$> uniqueColumns first others) in *.
  assert (Hc : c ∈ columns t).
  { rewrite Hcols. apply elem_of_app. right. left. }
  assert (Hlenc : length (cells (data c)) = numRows t).
  { pose proof (proj1 (Forall_lookup _ _) Hwf i t Hi) as Hwt.
    unfold wfTable in Hwt. rewrite Forall_forall in Hwt. by apply Hwt. }
  destruct (findMatchingColumn_is_Some R0 c) as [k Hk].
  { unfold R0. rewrite freshColumn_identities.
    apply (uniqueColumns_cover first others t c); [|done].
    rewrite <- Hts. by eapply list_elem_of_lookup_2. }
  assert (Hk' : findMatchingColumn (columns r) c = Some k).
  { rewrite <- Hk. apply findMatchingColumn_ext; [|done].
    by eapply copyTables_identities. }
  pose proof Hk' as ((out & Hout & Hid) & _)%findMatchingColumn_Some.
  exists k, out. repeat split; try done.
  intros x Hx. rewrite <- (cell_lookup _ _ _ _ Hout).
  (* split the copy phase around table [i] *)
  rewrite <- (take_drop_middle ts i t Hi) in Hcopy.
  apply copyTables_app_inv in Hcopy as (R1 & Hbefore & Hfrom).
  apply copyTables_cons_inv in Hfrom as (R2 & Hthis & Hafter).
  simpl in Hthis, Hafter. change (sum_list (numRows <$> take i ts)) with (rowOffset ts i) in *.
  rewrite (copyTables_frame_before _ _ _ _ k (rowOffset ts i + x) Hafter) by lia.
  rewrite Hcols in Hthis.
  apply (copyColumns_written _ _ _ _ _ _ _ _ Hthis Hlast); [|lia].
  rewrite <- Hk. apply findMatchingColumn_ext; [|done].
  by eapply copyTables_identities.
Qed.

Lemma combine_general_zero ts r i t k out x :
  2 ≤ length ts → Forall wfTable ts → combine ts = Return r →
  ts !! i = Some t →
  columns r !! k = Some out →
  (∀ c, c ∈ columns t → identity c ≠ identity out) →
  x < numRows t →
  cells (data out) !! (rowOffset ts i + x) = Some 0%Z.
Proof.
  intros Hlen Hwf Hr Hi Hout Hlacks Hx.
  destruct (combine_general_Return ts r Hlen Hr) as (first & others & Hts & Hcopy).
  set (R0 := freshColumn (sum_list (numRows <$> ts)) <$> uniqueColumns first others) in *.
  pose proof (copyTables_identities _ _ _ _ Hcopy) as Hids.
  rewrite <- (cell_lookup _ _ _ _ Hout).
  rewrite (copyTables_frame _ _ _ _ k (rowOffset ts i + x) Hcopy).
  - apply freshColumn_cell.
    + apply (f_equal length) in Hids. rewrite !length_fmap in Hids.
      unfold R0 in Hids. rewrite length_fmap in Hids. rewrite <- Hids.
      by eapply lookup_lt_Some.
    + pose proof (rowOffset_total ts i t Hi). lia.
  - intros j t' c Hj Hc Hfind. simpl.
    assert (Hidc : identity c = identity out).
    { apply findMatchingColumn_Some in Hfind as ((c0 & Hc0 & Hid0) & _).
      assert ((identity <$> columns r) !! k = Some (identity c0)) as Hk0.
      { rewrite Hids, list_lookup_fmap, Hc0. done. }
      rewrite list_lookup_fmap, Hout in Hk0. simpl in Hk0. congruence. }
    assert (Hlenc : length (cells (data c)) = numRows t').
    { pose proof (proj1 (Forall_lookup _ _) Hwf j t' Hj) as Hwt.
      unfold wfTable in Hwt. rewrite Forall_forall in Hwt. by apply Hwt. }
    destruct (decide (j = i)) as [->|Hne].
    { assert (t' = t) as -> by congruence. destruct (Hlacks c Hc Hidc). }
    destruct (decide (j < i)) as [Hlt|Hge].
    + pose proof (rowOffset_next ts j i t' Hj Hlt). lia.
    + pose proof (rowOffset_next ts i j t Hi ltac:(lia)). lia.
Qed.

End Combine.

Example combine_scenario :
  combine scenario =
    Return (mkDataTable [f32 "x" [11; 12; 13; 14; 15]; f32 "y" [21; 22; 23; 24; 25];
                         f32 "z" [31; 32; 33; 34; 35]; f32 "opacity" [0; 0; 7; 8; 9]]%Z).
Proof. vm_compute. reflexivity. Qed.

Example combine_duplicated :
  combine duplicated = Return (mkDataTable [f32 "x" [2; 3]; f32 "x" [0; 0]]%Z).
Proof. vm_compute. reflexivity. Qed.

Example combine_empty : combine [] = Throw TypeError.
Proof. reflexivity. Qed.

(** A source column that is longer than its table's [numRows] does not fit
    the output: the copy throws. *)
Example combine_ragged :
  combine [mkDataTable [f32 "a" [1]; f32 "b" [5; 6; 7]]%Z; mkDataTable [f32 "a" [2]%Z]]
  = Throw RangeError.
Proof. vm_compute. reflexivity. Qed.

Lemma wfTable_scenario : Forall wfTable scenario.
Proof. repeat constructor. Qed.

Lemma wfTable_duplicated : Forall wfTable duplicated.
Proof. repeat constructor. Qed.

(** C2. For a nonempty sequence of tables that satisfy the
    data-model invariant, [combine] returns a table whose [numRows] is the sum
    of the inputs' [numRows]; and for every input table and every column of it
    whose (name, elementType) identity no other column of that table carries,
    the column's data stands unchanged in the matching output column, from the
    running row offset of the table on. *)
Theorem combine_rows_preserved (dataTables : list DataTable) :
  dataTables ≠ [] → Forall wfTable dataTables →
  ∃ r, combine dataTables = Return r
    ∧ numRows r = sum_list (numRows <$> dataTables)
    ∧ ∀ i t j c,
        dataTables !! i = Some t → columns t !! j = Some c →
        (∀ j' c', j' ≠ j → columns t !! j' = Some c' → identity c' ≠ identity c) →
        ∃ k out,
          findMatchingColumn (columns r) c = Some k ∧ columns r !! k = Some out
          ∧ name out = name c ∧ dataType out = dataType c
          ∧ ∀ x, x < numRows t →
              cells (data out) !! (rowOffset dataTables i + x) = cells (data c) !! x.
Proof.
  intros Hne Hwf.
  destruct dataTables as [|first [|second rest]]; [done| |].
  - (* the one-element case returns its argument *)
    exists first. split; [done|]. split; [csimpl; lia|].
    intros i t j c Hi Hj Huniq.
    destruct i as [|i]; [|done]. simpl in Hi. simplify_eq.
    exists j, c. split; [|by rewrite rowOffset_0].
    apply findMatchingColumn_Some. split; [by exists c|].
    intros j' c' Hlt Hc'. apply (Huniq j' c'); [lia|done].
  - destruct (combine_general_succeeds (first :: second :: rest)) as [r Hr];
      [simpl; lia | done |].
    exists r. split; [done|].
    split; [apply combine_general_numRows; [simpl; lia | done]|].
    intros i t j c Hi Hj Huniq.
    destruct (combine_general_preserves (first :: second :: rest) r i t
                (take j (columns t)) c (drop (S j) (columns t)))
      as (k & out & Hk & Hout & Hid & Hdata);
      [simpl; lia | done | done | done | by rewrite take_drop_middle | |].
    + intros c' Hc'. apply list_elem_of_lookup in Hc' as [n Hn].
      rewrite lookup_drop in Hn. apply (Huniq (S j + n) c'); [lia|done].
    + exists k, out. unfold identity in Hid. by simplify_eq.
Qed.

Lemma combine_rows_preserved_witness :
  ∃ r, combine scenario = Return r
    ∧ numRows r = sum_list (numRows <$> scenario)
    ∧ ∀ i t j c,
        scenario !! i = Some t → columns t !! j = Some c →
        (∀ j' c', j' ≠ j → columns t !! j' = Some c' → identity c' ≠ identity c) →
        ∃ k out,
          findMatchingColumn (columns r) c = Some k ∧ columns r !! k = Some out
          ∧ name out = name c ∧ dataType out = dataType c
          ∧ ∀ x, x < numRows t →
              cells (data out) !! (rowOffset scenario i + x) = cells (data c) !! x.
Proof.
  apply (combine_rows_preserved scenario).
  - discriminate.
  - repeat constructor.
Defined.

(** With one identity twice in a table, the first of the two columns is
    found nowhere in the output: both are copied onto the one matching output
    column, and the later copy overwrites the earlier. *)
Lemma combine_rows_preserved_counterexample :
  Forall wfTable duplicated
  ∧ ¬ ∃ r, combine duplicated = Return r
        ∧ ∀ i t j c,
            duplicated !! i = Some t → columns t !! j = Some c →
            ∃ k out,
              columns r !! k = Some out ∧ identity out = identity c
              ∧ ∀ x, x < numRows t →
                  cells (data out) !! (rowOffset duplicated i + x) = cells (data c) !! x.
Proof.
  split; [apply wfTable_duplicated|].
  intros (r & Hr & Hall). rewrite combine_duplicated in Hr. simplify_eq.
  destruct (Hall 0 twiceX 0 (f32 "x" [1%Z]) eq_refl eq_refl)
    as (k & out & Hout & _ & Hdata).
  specialize (Hdata 0 ltac:(vm_compute; lia)).
  destruct k as [|[|k]]; simpl in Hout; simplify_eq; discriminate Hdata.
Qed.

(** C3. For two or more tables that satisfy the data-model invariant and an
    identity (name, elementType) carried by a column of some input, [combine]
    returns a table that has a column of that identity, and in every output
    column of that identity the rows of each input table lacking the identity
    hold the zero value. *)
Theorem combine_zero_fill (dataTables : list DataTable) (id : string * ElementType) :
  2 ≤ length dataTables → Forall wfTable dataTables →
  (∃ t c, t ∈ dataTables ∧ c ∈ columns t ∧ identity c = id) →
  ∃ r, combine dataTables = Return r
    ∧ (∃ k out, columns r !! k = Some out ∧ identity out = id)
    ∧ ∀ i t, dataTables !! i = Some t →
        (∀ c, c ∈ columns t → identity c ≠ id) →
        ∀ k out, columns r !! k = Some out → identity out = id →
          ∀ x, x < numRows t →
            cells (data out) !! (rowOffset dataTables i + x) = Some 0%Z.
Proof.
  intros Hlen Hwf (t0 & c0 & Ht0 & Hc0 & Hid0).
  destruct (combine_general_succeeds dataTables Hlen Hwf) as [r Hr].
  exists r. split; [done|]. split.
  - destruct (combine_general_Return _ _ Hlen Hr) as (first & others & Hts & Hcopy).
    pose proof (copyTables_identities _ _ _ _ Hcopy) as Hids.
    rewrite freshColumn_identities in Hids.
    assert (Hin : id ∈ identity <$> columns r).
    { rewrite Hids, <- Hid0. apply (uniqueColumns_cover first others t0 c0); [|done].
      by rewrite <- Hts. }
    apply list_elem_of_fmap in Hin as (out & -> & Hout).
    apply list_elem_of_lookup in Hout as [k Hk]. by exists k, out.
  - intros i t Hi Hlacks k out Hout Hid x Hx.
    apply (combine_general_zero dataTables r i t k out x); try done.
    by rewrite Hid.
Qed.

Lemma combine_zero_fill_witness :
  ∃ r, combine scenario = Return r
    ∧ (∃ k out, columns r !! k = Some out ∧ identity out = ("opacity", Float32))
    ∧ ∀ i t, scenario !! i = Some t →
        (∀ c, c ∈ columns t → identity c ≠ ("opacity", Float32)) →
        ∀ k out, columns r !! k = Some out → identity out = ("opacity", Float32) →
          ∀ x, x < numRows t →
            cells (data out) !! (rowOffset scenario i + x) = Some 0%Z.
Proof.
  apply (combine_zero_fill scenario ("opacity", Float32)).
  - simpl. lia.
  - repeat constructor.
  - exists xyzOpacityTable, (f32 "opacity" [7; 8; 9]%Z).
    split; [|split; [|reflexivity]].
    + apply list_elem_of_lookup. by exists 1.
    + apply list_elem_of_lookup. by exists 3.
Defined.

(** C8. [combine] of a one-element sequence returns that very table: the
    value is the argument, and on object references the result is the
    reference that was passed in, with nothing allocated. *)
Theorem combine_singleton (t : DataTable) :
  combine [t] = Return t
  ∧ ∀ (st : Store) (address : nat), combineRef st [address] = Return (st, address).
Proof. split; reflexivity. Qed.

(** ** Paths *)

Lemma length_append (s1 s2 : string) :
  String.length (s1 +:+ s2) = String.length s1 + String.length s2.
Proof. induction s1 as [|c s1 IH]; simpl; [done|]. by rewrite IH. Qed.

Lemma basename_no_slash (p : string) : hasSlash p = false → basename p = p.
Proof.
  induction p as [|c p IH]; simpl; [done|].
  intros [Hc Hp]%orb_false_elim. by rewrite Hp, Hc.
Qed.

Lemma path_split_length (p : string) :
  hasSlash p = true →
  String.length p = String.length (beforeLastSlash p) + 1 + String.length (basename p).
Proof.
  induction p as [|c p IH]; simpl; [done|].
  destruct (hasSlash p) eqn:Hp.
  - intros _. simpl. rewrite IH by done. lia.
  - rewrite orb_false_r. intros ->. simpl. lia.
Qed.

(** A sibling whose name extends the base name is longer than the path. *)
Lemma sibling_longer (p rest : string) :
  2 ≤ String.length rest →
  String.length p < String.length (join (dirname p) ("." +:+ basename p +:+ rest)).
Proof.
  intros Hrest. unfold join, dirname.
  destruct (hasSlash p) eqn:Hp.
  - pose proof (path_split_length p Hp) as Hlen.
    destruct (beforeLastSlash p) as [|c d] eqn:Hd.
    + simpl. rewrite !length_append. simpl in *. lia.
    + remember (String c d) as dir eqn:Hdir. clear Hdir Hd.
      destruct (String.eqb dir ".") eqn:Edot;
        [apply String.eqb_eq in Edot; subst dir|].
      { rewrite !length_append. simpl in *. lia. }
      destruct (String.eqb dir "/") eqn:Eroot;
        [apply String.eqb_eq in Eroot; subst dir|].
      { rewrite !length_append. simpl in *. lia. }
      rewrite !length_append. simpl in *. lia.
  - rewrite (basename_no_slash p Hp). simpl.
    rewrite !length_append. simpl. lia.
Qed.

(** ** The commit writer *)

Section CommitWriter.
Context `{Host} `{Codecs}.

Lemma io_bind_run {A B} (m : IO A) (k : A → IO B) (w : World) :
  (m ≫= k) w =
    match m w with
    | (w', Return a) => k a w'
    | (w', Throw e) => (w', Throw e)
    end.
Proof. reflexivity. Qed.

(** The temporary path is never the target path. *)
Lemma tmpPathname_ne (filename : string) (w : World) :
  tmpPathname filename w ≠ filename.
Proof.
  intros Heq. apply (f_equal String.length) in Heq.
  unfold tmpPathname, tmpFilename in Heq.
  match type of Heq with
  | String.length (join _ ("." +:+ _ +:+ ?rest)) = _ =>
      pose proof (sibling_longer filename rest) as Hlong;
      assert (2 ≤ String.length rest) as Hrest
        by (rewrite !length_append; simpl; lia)
  end.
  specialize (Hlong Hrest). lia.
Qed.

Lemma os_open_wx_run (path : string) (w : World) :
  os_open path FlagWX w =
    match hostFault (SysOpen path FlagWX) w, files w !! path with
    | Some code, _ => (record (EvOpen path FlagWX false) w, Throw (IOError code))
    | None, Some _ => (record (EvOpen path FlagWX false) w, Throw (IOError "EEXIST"))
    | None, None =>
        (mkWorld (<[path := []]> (files w))
                 (<[nextFd w := (path, FlagWX)]> (handles w))
                 (S (nextFd w))
                 (trace w ++ [EvOpen path FlagWX true]),
         Return (nextFd w))
    end.
Proof. unfold os_open. by repeat case_match. Qed.

Lemma os_sync_run (fd : nat) (w : World) (h : string * Flags) :
  handles w !! fd = Some h →
  os_sync fd w =
    match hostFault (SysSync fd) w with
    | Some code => (record (EvSync fd false) w, Throw (IOError code))
    | None => (record (EvSync fd true) w, Return tt)
    end.
Proof. intros Hh. unfold os_sync. by rewrite Hh. Qed.

(** A swallowed [close] of an open handle: the handle is gone, nothing is
    thrown. *)
Lemma close_ignored_run (fd : nat) (w : World) (h : string * Flags) :
  handles w !! fd = Some h →
  catchIgnore (os_close fd) w =
    (mkWorld (files w) (delete fd (handles w)) (nextFd w)
             (trace w ++ [EvClose fd (bool_decide (hostFault (SysClose fd) w = None))]),
     Return tt).
Proof.
  intros Hh. unfold catchIgnore, tryCatch, os_close. rewrite Hh.
  by destruct (hostFault (SysClose fd) w).
Qed.

Lemma os_rename_run (src dst : string) (w : World) (content : list Byte.byte) :
  files w !! src = Some content →
  os_rename src dst w =
    match hostFault (SysRename src dst) w with
    | Some code => (record (EvRename src dst false) w, Throw (IOError code))
    | None =>
        (mkWorld (<[dst := content]> (delete src (files w))) (handles w) (nextFd w)
                 (trace w ++ [EvRename src dst true]),
         Return tt)
    end.
Proof. intros Hs. unfold os_rename. by rewrite Hs. Qed.

(** The switch writes what the selected writer produces into the file behind
    the handle, and throws what the writer throws. *)
Lemma dispatchWriter_run fmt fd table filename options (w : World) path flags content :
  handles w !! fd = Some (path, flags) →
  files w !! path = Some content →
  let out := selectedWriter fmt fd table filename options w in
  dispatchWriter fmt fd table filename options w =
    (mkWorld (<[path := content ++ out.1]> (files w)) (handles w) (nextFd w)
             (trace w ++ codecEvents fmt fd (bool_decide (out.2 = None))),
     match out.2 with
     | None => Return tt
     | Some e => Throw e
     end).
Proof.
  intros Hh Hf. destruct w as [fs hs n tr]. simpl in *.
  destruct fmt; simpl; unfold writeThrough; simpl; rewrite ?Hh, ?Hf; simpl;
    try (by case_match);
    by rewrite !app_nil_r, insert_id by done.
Qed.

(** [writeFile], step by step: every way a run can go, and the world it
    leaves behind. *)
Lemma writeFile_run (filename : string) (table : DataTable) (options : Options)
    (w : World) :
  writeFile filename table options w =
    match getOutputFormat filename with
    | Throw e => (w, Throw e)
    | Return fmt =>
        let w0 := announced filename w in
        let tmp := tmpPathname filename w0 in
        let fd := nextFd w in
        match hostFault (SysOpen tmp FlagWX) w0, files w !! tmp with
        | Some code, _ => (record (EvOpen tmp FlagWX false) w0, Throw (IOError code))
        | None, Some _ => (record (EvOpen tmp FlagWX false) w0, Throw (IOError "EEXIST"))
        | None, None =>
            let w2 := written fmt table filename options w in
            match (selectedWriter fmt fd table filename options (staged filename w)).2 with
            | Some e => (closed fd w2, Throw e)
            | None =>
                match hostFault (SysSync fd) w2 with
                | Some code => (closed fd (record (EvSync fd false) w2), Throw (IOError code))
                | None =>
                    let w3 := closed fd (record (EvSync fd true) w2) in
                    match hostFault (SysRename tmp filename) w3 with
                    | Some code =>
                        (record (EvRename tmp filename false) w3, Throw (IOError code))
                    | None =>
                        (mkWorld (<[filename :=
                                      (selectedWriter fmt fd table filename options
                                         (staged filename w)).1]> (files w))
                                 (handles w3) (nextFd w3)
                                 (trace w3 ++ [EvRename tmp filename true]),
                         Return tt)
                    end
                end
            end
        end
    end.
Proof.
  unfold writeFile. rewrite io_bind_run. unfold liftO.
  destruct (getOutputFormat filename) as [fmt|e]; [|done].
  rewrite io_bind_run. unfold console. fold (announced filename w).
  rewrite io_bind_run. unfold observe.
  rewrite io_bind_run, os_open_wx_run.
  change (files (announced filename w)) with (files w).
  destruct (hostFault _ (announced filename w)) as [code|]; [done|].
  destruct (files w !! tmpPathname filename (announced filename w)) eqn:Hfree; [done|].
  change (nextFd (announced filename w)) with (nextFd w).
  change (handles (announced filename w)) with (handles w).
  set (tmp := tmpPathname filename (announced filename w)) in *.
  set (fd := nextFd w).
  match goal with
  | |- _ ?opened = _ =>
      assert (opened = staged filename w) as ->
        by (unfold staged; f_equal; simpl; by rewrite <- app_assoc)
  end.
  set (w1 := staged filename w).
  assert (Hfd : handles w1 !! fd = Some (tmp, FlagWX)) by apply lookup_insert_eq.
  assert (Htmp : files w1 !! tmp = Some []) by apply lookup_insert_eq.
  rewrite io_bind_run. unfold tryFinally. rewrite io_bind_run.
  rewrite (dispatchWriter_run fmt fd table filename options w1 tmp FlagWX [] Hfd Htmp).
  cbv zeta. rewrite app_nil_l.
  match goal with
  | |- context [mkWorld (<[tmp := ?bytes]> (files w1)) ?hs ?n ?tr] =>
      assert (mkWorld (<[tmp := bytes]> (files w1)) hs n tr
              = written fmt table filename options w) as ->
        by (unfold written; f_equal; apply insert_insert_eq)
  end.
  set (w2 := written fmt table filename options w).
  assert (Hfd2 : handles w2 !! fd = Some (tmp, FlagWX)) by apply Hfd.
  destruct (selectedWriter fmt fd table filename options w1).2 as [e|] eqn:Hout.
  { rewrite (close_ignored_run fd w2 _ Hfd2). done. }
  rewrite (os_sync_run fd w2 _ Hfd2).
  destruct (hostFault (SysSync fd) w2) as [code|].
  { rewrite (close_ignored_run fd (record (EvSync fd false) w2) _ Hfd2). done. }
  rewrite (close_ignored_run fd (record (EvSync fd true) w2) _ Hfd2).
  fold (closed fd (record (EvSync fd true) w2)).
  set (w3 := closed fd (record (EvSync fd true) w2)).
  rewrite (os_rename_run tmp filename w3
             (selectedWriter fmt fd table filename options w1).1)
    by apply lookup_insert_eq.
  destruct (hostFault (SysRename tmp filename) w3) as [code|]; [done|].
  f_equal. f_equal. simpl.
  by rewrite delete_insert_eq, delete_id.
Qed.

Lemma selectedWriter_options fmt fd table filename (o1 o2 : Options) :
  cpu o1 = cpu o2 → iterations o1 = iterations o2 →
  selectedWriter fmt fd table filename o1 = selectedWriter fmt fd table filename o2.
Proof. intros Hc Hi. unfold selectedWriter, device. by rewrite Hc, Hi. Qed.

Lemma codecEvents_no_rename fmt fd b src dst ok :
  EvRename src dst ok ∈ codecEvents fmt fd b → False.
Proof.
  destruct fmt; simpl; intros Hin;
    repeat (apply elem_of_cons in Hin as [Hin|Hin]; [discriminate Hin|]);
    by apply elem_of_nil in Hin.
Qed.

Ltac no_rename Hin :=
  exfalso; simpl in Hin;
  repeat first
    [ apply elem_of_nil in Hin; exact Hin
    | apply elem_of_cons in Hin as [Hin|Hin]; [discriminate Hin|]
    | apply elem_of_app in Hin as [Hin|Hin];
        [exact (codecEvents_no_rename _ _ _ _ _ _ Hin)|] ].

(** C1. When [writeFile] fails, the file at the target path is what it was
    before the call: an unsupported output kind fails with the world
    untouched, and after any later failure (opening the temporary file, the
    codec, the flush, the rename) the target path still holds its old content
    or is still absent.  A rename appears in a run only as its last step,
    from the temporary path onto the target, after the writer has returned
    and the flush has succeeded. *)
Theorem writeFile_failure_leaves_target (filename : string) (table : DataTable)
    (options : Options) (w : World) :
  (∀ e, getOutputFormat filename = Throw e →
        writeFile filename table options w = (w, Throw e))
  ∧ (∀ w' e, writeFile filename table options w = (w', Throw e) →
        files w' !! filename = files w !! filename)
  ∧ (∀ w' r, writeFile filename table options w = (w', r) →
       ∃ new, trace w' = trace w ++ new
         ∧ ∀ src dst ok, EvRename src dst ok ∈ new →
             ∃ fmt closeOk,
               getOutputFormat filename = Return fmt
               ∧ (selectedWriter fmt (nextFd w) table filename options
                    (staged filename w)).2 = None
               ∧ src = tmpPathname filename (announced filename w)
               ∧ dst = filename
               ∧ new = [EvConsole (LogWriting filename); EvOpen src FlagWX true]
                       ++ codecEvents fmt (nextFd w) true
                       ++ [EvSync (nextFd w) true; EvClose (nextFd w) closeOk;
                           EvRename src dst ok]).
Proof.
  pose proof (tmpPathname_ne filename (announced filename w)) as Hne.
  split; [|split].
  - intros e He. by rewrite writeFile_run, He.
  - intros w' e. rewrite writeFile_run.
    destruct (getOutputFormat filename) as [fmt|e0]; [|by intros [= <- _]].
    cbv zeta. repeat case_match; intros [= <- ?]; simpl; try done;
      by rewrite lookup_insert_ne.
  - intros w' r. rewrite writeFile_run.
    destruct (getOutputFormat filename) as [fmt|e0].
    2:{ intros [= <- _]. exists []. split; [by rewrite app_nil_r|].
        intros ??? Hin. by apply elem_of_nil in Hin. }
    cbv zeta.
    set (tmp := tmpPathname filename (announced filename w)).
    set (fd := nextFd w).
    destruct (hostFault (SysOpen tmp FlagWX) (announced filename w)) as [code|].
    { intros [= <- _]. eexists. split; [simpl; by rewrite <- app_assoc|].
      intros src dst ok Hin. no_rename Hin. }
    destruct (files w !! tmp).
    { intros [= <- _]. eexists. split; [simpl; by rewrite <- app_assoc|].
      intros src dst ok Hin. no_rename Hin. }
    destruct (selectedWriter fmt fd table filename options (staged filename w)).2
      as [e|] eqn:Hout.
    { intros [= <- _]. eexists. split; [simpl; by rewrite <- !app_assoc|].
      intros src dst ok Hin. no_rename Hin. }
    destruct (hostFault (SysSync fd) _) as [code|].
    { intros [= <- _]. eexists. split; [simpl; by rewrite <- !app_assoc|].
      intros src dst ok Hin. no_rename Hin. }
    destruct (hostFault (SysRename tmp filename) _) as [code|];
      intros [= <- _]; (eexists; split; [simpl; by rewrite <- !app_assoc|]);
      intros src dst ok Hin; simpl in Hin;
      repeat (apply elem_of_cons in Hin as [Hin|Hin]; [discriminate Hin|]);
      (apply elem_of_app in Hin as [Hin|Hin];
         [by apply codecEvents_no_rename in Hin|]);
      repeat (apply elem_of_cons in Hin as [Hin|Hin]; [discriminate Hin|]);
      (apply elem_of_cons in Hin as [Hin|Hin]; [|by apply elem_of_nil in Hin]);
      injection Hin as -> -> ->; exists fmt; eexists;
      (split; [done|]); (split; [done|]); (split; [done|]); (split; [done|]);
      unfold fd in *; rewrite Hout; reflexivity.
Qed.

Lemma writeFile_success_installs (filename : string) (table : DataTable)
    (options : Options) (w w' : World) :
  writeFile filename table options w = (w', Return tt) →
  ∃ fmt, getOutputFormat filename = Return fmt
    ∧ files w !! tmpPathname filename (announced filename w) = None
    ∧ files w' = <[filename := (selectedWriter fmt (nextFd w) table filename options
                                  (staged filename w)).1]> (files w).
Proof.
  rewrite writeFile_run.
  destruct (getOutputFormat filename) as [fmt|e0]; [|done].
  cbv zeta. intros Hrun. exists fmt. split; [done|].
  repeat case_match; try discriminate Hrun. by injection Hrun as <-.
Qed.

(** C9. Two option records that differ only in [overwrite] give the same
    run of [writeFile]; a successful run leaves the newly written content at
    the target path whatever was there before; and the run does succeed, with
    either record and whether or not the target path already holds a file, as
    soon as the output kind resolves, the temporary name is free, the writer
    does not throw and the host fails none of [open], [sync] and [rename]:
    nothing consults the flag, the rename replaces. *)
Theorem writeFile_ignores_overwrite (filename : string) (table : DataTable)
    (o1 o2 : Options) (w : World) :
  help o1 = help o2 → version o1 = version o2 → cpu o1 = cpu o2 →
  iterations o1 = iterations o2 → viewerSettingsPath o1 = viewerSettingsPath o2 →
  writeFile filename table o1 w = writeFile filename table o2 w
  ∧ (∀ w', writeFile filename table o1 w = (w', Return tt) →
      ∃ fmt, getOutputFormat filename = Return fmt
        ∧ files w' !! filename =
            Some (selectedWriter fmt (nextFd w) table filename o1 (staged filename w)).1)
  ∧ ∀ fmt,
      let tmp := tmpPathname filename (announced filename w) in
      let fd := nextFd w in
      let out := selectedWriter fmt fd table filename o1 (staged filename w) in
      let w2 := written fmt table filename o1 w in
      let w3 := closed fd (record (EvSync fd true) w2) in
      getOutputFormat filename = Return fmt →
      files w !! tmp = None →
      hostFault (SysOpen tmp FlagWX) (announced filename w) = None →
      out.2 = None →
      hostFault (SysSync fd) w2 = None →
      hostFault (SysRename tmp filename) w3 = None →
      ∃ w', writeFile filename table o1 w = (w', Return tt)
        ∧ writeFile filename table o2 w = (w', Return tt)
        ∧ files w' = <[filename := out.1]> (files w)
        ∧ files w' !! filename = Some out.1.
Proof.
  intros _ _ Hcpu Hiter _.
  assert (Hsame : writeFile filename table o1 w = writeFile filename table o2 w).
  { rewrite !writeFile_run.
    destruct (getOutputFormat filename) as [fmt|e0]; [|done].
    cbv zeta. unfold written.
    by rewrite (selectedWriter_options fmt _ table filename o1 o2 Hcpu Hiter). }
  split; [done|]. split.
  - intros w' (fmt & Hfmt & _ & Hfiles)%writeFile_success_installs.
    exists fmt. split; [done|]. rewrite Hfiles. apply lookup_insert_eq.
  - intros fmt tmp fd out w2 w3 Hfmt Hfree Hopen Hout Hsync Hrename.
    rewrite <- Hsame, writeFile_run, Hfmt. cbv zeta.
    fold tmp fd. rewrite Hopen, Hfree. fold out w2. rewrite Hout, Hsync.
    fold w3. rewrite Hrename.
    eexists. split; [reflexivity|]. split; [reflexivity|]. split; [reflexivity|].
    apply lookup_insert_eq.
Qed.

End CommitWriter.

(** C10. For a target name ending in [.csv] or [.html] the output kind
    resolves, the switch has no case for it and no writer runs, whatever the
    codecs are; when the host fails no call and the temporary name is free,
    [writeFile] returns and leaves an empty file at the target path and no
    temporary file. *)
Theorem writeFile_csv_html_empty (host : Host) (codecs : Codecs)
    (filename : string) (table : DataTable) (options : Options) (w : World) :
  endsWith (toLowerCase filename) ".csv" = true
  ∨ endsWith (toLowerCase filename) ".html" = true →
  (∀ call w0, hostFault call w0 = None) →
  files w !! tmpPathname filename (announced filename w) = None →
  let tmp := tmpPathname filename (announced filename w) in
  let fd := nextFd w in
  (getOutputFormat filename = Return FmtCsv ∨ getOutputFormat filename = Return FmtHtml)
  ∧ (∀ others : Codecs,
       @writeFile host others filename table options w
       = @writeFile host codecs filename table options w)
  ∧ ∃ w', writeFile filename table options w = (w', Return tt)
      ∧ files w' = <[filename := []]> (files w)
      ∧ trace w' = trace w ++ [EvConsole (LogWriting filename); EvOpen tmp FlagWX true;
                               EvSync fd true; EvClose fd true;
                               EvRename tmp filename true].
Proof.
  intros Hsuffix Hquiet Hfree tmp fd.
  assert (Hfmt : getOutputFormat filename = Return FmtCsv
                 ∨ getOutputFormat filename = Return FmtHtml).
  { destruct Hsuffix as [Hc|Hh];
      [left; by apply getOutputFormat_csv | right; by apply getOutputFormat_html]. }
  split; [done|]. split.
  - intros others. rewrite !writeFile_run.
    destruct Hfmt as [-> | ->]; reflexivity.
  - rewrite writeFile_run.
    subst tmp fd.
    destruct Hfmt as [-> | ->]; cbv zeta; rewrite !Hquiet, Hfree;
      simpl; (eexists; split; [reflexivity|]); simpl; (split; [done|]);
      by rewrite Hquiet, app_nil_r, <- !app_assoc.
Qed.

Example writeFile_ply_replaces :
  (@writeFile quietHost goodCodecs "/out/b.ply" splatTable defaultOptions sampleWorld).2
    = Return tt
  ∧ files (@writeFile quietHost goodCodecs "/out/b.ply" splatTable defaultOptions
             sampleWorld).1
    = <["/out/b.ply" := payload]> (files sampleWorld).
Proof. split; vm_compute; reflexivity. Qed.

Example writeFile_broken_codec :
  (@writeFile quietHost brokenPlyCodecs "/out/b.ply" splatTable defaultOptions sampleWorld).2
    = Throw (CodecError "disk full")
  ∧ files (@writeFile quietHost brokenPlyCodecs "/out/b.ply" splatTable defaultOptions
             sampleWorld).1
    = <["/out/.b.ply.4242.1700000000000.abababababab.tmp" := [Byte.x70]]>
        (files sampleWorld).
Proof. split; vm_compute; reflexivity. Qed.

Lemma writeFile_failure_leaves_target_witness :
  files (@writeFile quietHost brokenPlyCodecs "/out/b.ply" splatTable defaultOptions
           sampleWorld).1 !! "/out/b.ply"
  = files sampleWorld !! "/out/b.ply".
Proof.
  apply (proj1 (proj2 (@writeFile_failure_leaves_target quietHost brokenPlyCodecs
                         "/out/b.ply" splatTable defaultOptions sampleWorld))
           _ (CodecError "disk full")).
  vm_compute. reflexivity.
Defined.

Lemma writeFile_ignores_overwrite_witness :
  files sampleWorld !! "/out/b.ply" = Some oldContent
  ∧ ∃ w', @writeFile quietHost goodCodecs "/out/b.ply" splatTable
            (mkOptions false false false true 10 None) sampleWorld = (w', Return tt)
      ∧ @writeFile quietHost goodCodecs "/out/b.ply" splatTable
            (mkOptions true false false true 10 None) sampleWorld = (w', Return tt)
      ∧ files w' = <["/out/b.ply" := payload]> (files sampleWorld)
      ∧ files w' !! "/out/b.ply" = Some payload.
Proof.
  split; [reflexivity|].
  apply (proj2 (proj2 (@writeFile_ignores_overwrite quietHost goodCodecs "/out/b.ply"
                         splatTable
                         (mkOptions false false false true 10 None)
                         (mkOptions true false false true 10 None) sampleWorld
                         eq_refl eq_refl eq_refl eq_refl eq_refl)) FmtPly);
    vm_compute; reflexivity.
Defined.

Lemma writeFile_csv_html_empty_witness :
  ∃ w', @writeFile quietHost goodCodecs "/out/report.csv" splatTable defaultOptions
          sampleWorld = (w', Return tt)
    ∧ files w' = <["/out/report.csv" := []]> (files sampleWorld)
    ∧ trace w' =
        trace sampleWorld
        ++ [EvConsole (LogWriting "/out/report.csv");
            EvOpen (@tmpPathname quietHost "/out/report.csv"
                      (announced "/out/report.csv" sampleWorld)) FlagWX true;
            EvSync (nextFd sampleWorld) true; EvClose (nextFd sampleWorld) true;
            EvRename (@tmpPathname quietHost "/out/report.csv"
                        (announced "/out/report.csv" sampleWorld))
                     "/out/report.csv" true].
Proof.
  apply (writeFile_csv_html_empty quietHost goodCodecs "/out/report.csv" splatTable
           defaultOptions sampleWorld).
  - left. reflexivity.
  - reflexivity.
  - vm_compute. reflexivity.
Defined.

(** ** The reader *)

Section Reader.
Context `{Host} `{Codecs}.

Lemma os_close_run (fd : nat) (w : World) (h : string * Flags) :
  handles w !! fd = Some h →
  os_close fd w =
    (closed fd w,
     match hostFault (SysClose fd) w with
     | Some code => Throw (IOError code)
     | None => Return tt
     end).
Proof.
  intros Hh. unfold os_close, closed. rewrite Hh.
  by destruct (hostFault (SysClose fd) w).
Qed.

(** [readFile], step by step. *)
Lemma readFile_run (filename : string) (params : list Param) (w : World) :
  readFile filename params w =
    let w0 := record (EvConsole (LogReading filename)) w in
    if endsWith (toLowerCase filename) ".mjs" then (w0, readMjs filename params w0)
    else
      match hostFault (SysOpen filename FlagR) w0, files w !! filename with
      | Some code, _ => (record (EvOpen filename FlagR false) w0, Throw (IOError code))
      | None, None => (record (EvOpen filename FlagR false) w0, Throw (IOError "ENOENT"))
      | None, Some _ =>
          let w1 := openedForRead filename w in
          let fd := nextFd w in
          match selectedReader filename fd with
          | None =>
              (closed fd w1,
               match hostFault (SysClose fd) w1 with
               | Some code => Throw (IOError code)
               | None => Throw (UnsupportedInput filename)
               end)
          | Some reader =>
              match reader w1 with
              | Throw e => (w1, Throw e)
              | Return fileData =>
                  (closed fd w1,
                   match hostFault (SysClose fd) w1 with
                   | Some code => Throw (IOError code)
                   | None => Return fileData
                   end)
              end
          end
      end.
Proof.
  unfold readFile. rewrite io_bind_run. unfold console. cbv zeta.
  destruct (endsWith (toLowerCase filename) ".mjs"); [done|].
  rewrite io_bind_run. unfold os_open.
  change (files (record (EvConsole (LogReading filename)) w)) with (files w).
  destruct (hostFault (SysOpen filename FlagR) _) as [code|]; [done|].
  destruct (files w !! filename) eqn:Hfile; [|done].
  match goal with
  | |- context [mkWorld ?f ?h ?n ?t] =>
      assert (mkWorld f h n t = openedForRead filename w) as ->
        by (unfold openedForRead; f_equal; simpl; by rewrite <- app_assoc)
  end.
  change (nextFd (record (EvConsole (LogReading filename)) w)) with (nextFd w).
  set (w1 := openedForRead filename w). set (fd := nextFd w).
  assert (Hfd : handles w1 !! fd = Some (filename, FlagR)) by apply lookup_insert_eq.
  unfold selectedReader. cbv zeta. rewrite io_bind_run.
  repeat (match goal with
          | |- context [if ?b then _ else _] =>
              lazymatch b with
              | endsWith _ _ => destruct b
              | orb _ _ => destruct b
              end
          end; simpl).
  all: unfold observe, throw, liftO; rewrite ?io_bind_run; simpl.
  all: try match goal with
           | |- context [readPly ?a ?b] =>
               destruct (readPly a b) as [ply|e];
                 rewrite ?bind_Return, ?bind_Throw; [|done];
                 destruct (isCompressedPly ply); rewrite ?io_bind_run;
                 [destruct (decompressPly ply) as [table|e];
                    rewrite ?bind_Return, ?bind_Throw; [|done]|]
           end.
  all: try match goal with
           | |- match ?r with Return _ => _ | Throw _ => _ end = _ =>
               destruct r; [|done]
           end.
  all: unfold mret at 1, IO_ret at 1;
    rewrite ?io_bind_run, ?(os_close_run fd w1 _ Hfd);
    by destruct (hostFault (SysClose fd) w1).
Qed.

(** The two exits that release the handle: a successful read and an
    unsupported input type. *)
Lemma readFile_return_closes (filename : string) (params : list Param)
    (w w' : World) (fileData : FileData) :
  endsWith (toLowerCase filename) ".mjs" = false →
  readFile filename params w = (w', Return fileData) →
  w' = closed (nextFd w) (openedForRead filename w)
  ∧ handles w' !! nextFd w = None.
Proof.
  intros Hmjs. rewrite readFile_run. cbv zeta. rewrite Hmjs.
  repeat case_match; intros [= <- ?]; simplify_eq.
  split; [done|]. apply lookup_delete_eq.
Qed.

Lemma readFile_unsupported_closes (filename : string) (params : list Param)
    (w : World) (content : list Byte.byte) :
  endsWith (toLowerCase filename) ".mjs" = false →
  hostFault (SysOpen filename FlagR) (record (EvConsole (LogReading filename)) w) = None →
  files w !! filename = Some content →
  selectedReader filename (nextFd w) = None →
  ∃ e, readFile filename params w
       = (closed (nextFd w) (openedForRead filename w), Throw e)
    ∧ handles (closed (nextFd w) (openedForRead filename w)) !! nextFd w = None.
Proof.
  intros Hmjs Hopen Hfile Hnone. rewrite readFile_run. cbv zeta.
  rewrite Hmjs, Hopen, Hfile, Hnone.
  destruct (hostFault (SysClose (nextFd w)) _); (eexists; split; [done|]);
    apply lookup_delete_eq.
Qed.

(** C7. The exit on which the handle stays open: when the reader selected for
    a non-[.mjs] input throws, [readFile] ends in that exception with the
    world as it was right after [open], the input handle still among the open
    handles.  Only the successful read and the unsupported-type branch reach a
    [close]. *)
Theorem readFile_reader_exception_leaks_handle (filename : string)
    (params : list Param) (w : World) (content : list Byte.byte) reader (e : Error) :
  endsWith (toLowerCase filename) ".mjs" = false →
  hostFault (SysOpen filename FlagR) (record (EvConsole (LogReading filename)) w) = None →
  files w !! filename = Some content →
  selectedReader filename (nextFd w) = Some reader →
  reader (openedForRead filename w) = Throw e →
  readFile filename params w = (openedForRead filename w, Throw e)
  ∧ handles (openedForRead filename w) !! nextFd w = Some (filename, FlagR).
Proof.
  intros Hmjs Hopen Hfile Hsel Hthrow. rewrite readFile_run. cbv zeta.
  rewrite Hmjs, Hopen, Hfile, Hsel, Hthrow. split; [done|].
  apply lookup_insert_eq.
Qed.

End Reader.

Example readFile_success_closes :
  let run := @readFile quietHost goodCodecs "/in/a.ply" [] sampleWorld in
  run.2 = Return splatFile ∧ handles run.1 = ∅.
Proof. split; vm_compute; reflexivity. Qed.

Example readFile_unsupported_type_closes :
  let run := @readFile quietHost goodCodecs "/out/b.xyz" []
               (mkWorld (<["/out/b.xyz" := payload]> ∅) ∅ 3 []) in
  run.2 = Throw (UnsupportedInput "/out/b.xyz") ∧ handles run.1 = ∅.
Proof. split; vm_compute; reflexivity. Qed.

Lemma readFile_reader_exception_leaks_handle_witness :
  let run := @readFile quietHost brokenPlyCodecs "/in/a.ply" [] sampleWorld in
  run.2 = Throw (CodecError "bad ply header")
  ∧ handles run.1 !! nextFd sampleWorld = Some ("/in/a.ply", FlagR)
  ∧ trace run.1 = [EvConsole (LogReading "/in/a.ply"); EvOpen "/in/a.ply" FlagR true].
Proof.
  destruct (@readFile_reader_exception_leaks_handle quietHost brokenPlyCodecs
              "/in/a.ply" [] sampleWorld payload _ (CodecError "bad ply header")
              eq_refl eq_refl eq_refl eq_refl eq_refl) as [Hrun Hopen].
  cbv zeta. rewrite Hrun. split; [reflexivity|]. split; [exact Hopen|reflexivity].
Defined.

(** ** The orchestrator *)

Section Orchestrator.
Context `{Host} `{Codecs}.

(** The [try] block has one normal exit, the [return { isOk: true }]. *)
Lemma tryBlock_Return (filename outputFilename : string) (w w' : World)
    (res : ConvertResult) :
  tryBlock filename outputFilename w = (w', Return res) → res = mkResult true None.
Proof.
  unfold tryBlock. rewrite io_bind_run.
  destruct (readInput filename w) as [wa [inputFile|e]]; [|done].
  rewrite io_bind_run. unfold liftO.
  match goal with
  | |- match ?o with Return _ => _ | Throw _ => _ end = _ → _ =>
      destruct o as [table|e]
  end; [|done].
  destruct (numRows table =? 0); [done|].
  rewrite io_bind_run. unfold console. rewrite io_bind_run.
  destruct (writeFile _ _ _ _) as [wb [[]|e]]; [|done].
  by intros [= _ <-].
Qed.

(** C4. [convertGsplat] never throws: every run returns a result object,
    [{ isOk: true }] when the [try] block returned, and otherwise
    [{ isOk: false, error }] carrying the exception that left the [try] block
    (whichever stage threw it), after logging it. *)
Theorem convertGsplat_never_throws (filename outputFilename : string) (w : World) :
  ∃ w' res,
    convertGsplat filename outputFilename w = (w', Return res)
    ∧ ((res = mkResult true None
        ∧ tryBlock filename outputFilename w = (w', Return res))
       ∨ ∃ w1 e,
           res = mkResult false (Some e)
           ∧ tryBlock filename outputFilename w = (w1, Throw e)
           ∧ w' = record (EvConsole (LogError e)) w1).
Proof.
  unfold convertGsplat, tryCatch.
  destruct (tryBlock filename outputFilename w) as [w1 [res|e]] eqn:Hbody.
  - exists w1, res. split; [done|]. left.
    by rewrite (tryBlock_Return _ _ _ _ _ Hbody).
  - eexists _, _. split; [reflexivity|]. right. by exists w1, e.
Qed.

End Orchestrator.

(** The end-to-end scenarios of the specification. *)
Example convertGsplat_ply_to_ply :
  let run := @convertGsplat quietHost goodCodecs "/in/a.ply" "/out/b.ply" sampleWorld in
  run.2 = Return (mkResult true None)
  ∧ files run.1 !! "/out/b.ply" = Some payload
  ∧ handles run.1 = ∅.
Proof. repeat split; vm_compute; reflexivity. Qed.

Example convertGsplat_xyz_only :
  let run := @convertGsplat quietHost xyzCodecs "/in/a.ply" "/out/c.ply" sampleWorld in
  run.2 = Return (mkResult false (Some (UnsupportedData "/in/a.ply")))
  ∧ files run.1 = files sampleWorld.
Proof. repeat split; vm_compute; reflexivity. Qed.

Example convertGsplat_unsupported_output :
  let run := @convertGsplat quietHost goodCodecs "/in/a.ply" "/out/b.txt" sampleWorld in
  run.2 = Return (mkResult false (Some (UnsupportedOutput "/out/b.txt")))
  ∧ files run.1 = files sampleWorld.
Proof. repeat split; vm_compute; reflexivity. Qed.

(* ===================================================================== *)
(** * Further properties of the same functions *)
(* ===================================================================== *)

(** ** More on the format resolver *)

Lemma endsWith_weaken (s a b : string) :
  endsWith a b = true → endsWith s a = true → endsWith s b = true.
Proof. rewrite !endsWith_true. intros Hba Has. by etrans. Qed.

(** Two of the tested suffixes that cannot end the same name. *)
Ltac clash H1 H2 :=
  match type of H1 with
  | endsWith ?s ?a = true =>
      match type of H2 with
      | endsWith s ?b = true =>
          pose proof (endsWith_exclusive s a b eq_refl eq_refl H1); congruence
      end
  end.

Ltac suffix_clash :=
  match goal with
  | H1 : endsWith ?s ?a = true, H2 : endsWith ?s ?b = true |- _ => clash H1 H2
  end.

(** X1. Which names resolve to which output kind: the order of the tests
    matters only for [lod-meta.json] against [meta.json] and for
    [.compressed.ply] against [.ply]; every other kind is decided by its own
    suffix alone. *)
Theorem getOutputFormat_kinds (filename : string) :
  let l := toLowerCase filename in
  (getOutputFormat filename = Return FmtCsv ↔ endsWith l ".csv" = true)
  ∧ (getOutputFormat filename = Return FmtLod ↔ endsWith l "lod-meta.json" = true)
  ∧ (getOutputFormat filename = Return FmtSog ↔
       (endsWith l ".sog" = true ∨ endsWith l "meta.json" = true)
       ∧ endsWith l "lod-meta.json" = false)
  ∧ (getOutputFormat filename = Return FmtCompressedPly ↔
       endsWith l ".compressed.ply" = true)
  ∧ (getOutputFormat filename = Return FmtPly ↔
       endsWith l ".ply" = true ∧ endsWith l ".compressed.ply" = false)
  ∧ (getOutputFormat filename = Return FmtHtml ↔ endsWith l ".html" = true)
  ∧ (getOutputFormat filename = Throw (UnsupportedOutput filename) ↔
       endsWith l ".csv" = false ∧ endsWith l ".sog" = false
       ∧ endsWith l "meta.json" = false ∧ endsWith l ".ply" = false
       ∧ endsWith l ".html" = false).
Proof.
  cbv zeta. unfold getOutputFormat.
  destruct (endsWith (toLowerCase filename) ".csv") eqn:Hcsv;
  destruct (endsWith (toLowerCase filename) "lod-meta.json") eqn:Hlod;
  destruct (endsWith (toLowerCase filename) ".sog") eqn:Hsog;
  destruct (endsWith (toLowerCase filename) "meta.json") eqn:Hmeta;
  destruct (endsWith (toLowerCase filename) ".compressed.ply") eqn:Hcply;
  destruct (endsWith (toLowerCase filename) ".ply") eqn:Hply;
  destruct (endsWith (toLowerCase filename) ".html") eqn:Hhtml;
  try suffix_clash;
  try (pose proof (endsWith_weaken _ _ _ (eq_refl : endsWith "lod-meta.json" "meta.json" = true) Hlod);
       congruence);
  try (pose proof (endsWith_weaken _ _ _ (eq_refl : endsWith ".compressed.ply" ".ply" = true) Hcply);
       congruence);
  simpl; repeat split; intros; try done; intuition congruence.
Qed.

(** X2. The output kind depends on the name only up to the case of its
    letters. *)
Theorem getOutputFormat_case_insensitive (f g : string) (kind : OutputFormat) :
  toLowerCase f = toLowerCase g →
  getOutputFormat f = Return kind → getOutputFormat g = Return kind.
Proof.
  unfold getOutputFormat. intros ->.
  repeat (match goal with
          | |- context [if ?b then _ else _] => destruct b; [done|]
          end).
  done.
Qed.

Lemma getOutputFormat_case_insensitive_witness :
  getOutputFormat "Scene.PLY" = Return FmtPly.
Proof.
  apply (getOutputFormat_case_insensitive "scene.ply" "Scene.PLY" FmtPly);
    reflexivity.
Defined.

(** X3. The suffixes that only [readFile] knows ([.ksplat], [.splat], [.spz],
    [.mjs]) name no output kind: [getOutputFormat] throws for them. *)
Theorem getOutputFormat_input_only_suffixes (filename : string) :
  endsWith (toLowerCase filename) ".ksplat" = true
  ∨ endsWith (toLowerCase filename) ".splat" = true
  ∨ endsWith (toLowerCase filename) ".spz" = true
  ∨ endsWith (toLowerCase filename) ".mjs" = true →
  getOutputFormat filename = Throw (UnsupportedOutput filename).
Proof.
  unfold getOutputFormat.
  intros [H|[H|[H|H]]]; repeat other_suffix H; reflexivity.
Qed.

Lemma getOutputFormat_input_only_suffixes_witness :
  getOutputFormat "scene.ksplat" = Throw (UnsupportedOutput "scene.ksplat").
Proof.
  apply (getOutputFormat_input_only_suffixes "scene.ksplat"). left. reflexivity.
Defined.

(** ** More on [readFile] *)

Section ReaderMore.
Context `{Host} `{Codecs}.

(** X4. [readFile] writes nothing: whatever the input name, the readers and
    the host do, the files after the call are the files before it. *)
Theorem readFile_keeps_files (filename : string) (params : list Param) (w : World) :
  files (readFile filename params w).1 = files w.
Proof.
  rewrite readFile_run. cbv zeta. by repeat case_match.
Qed.

(** X5. The handle accounting of [readFile]: when the descriptor about to be
    handed out is free, a run ends either with the open handles it started
    with, or with exactly the input handle added, and the latter only when
    the input was opened and the selected reader threw the exception that
    [readFile] ends in. *)
Theorem readFile_handle_accounting (filename : string) (params : list Param)
    (w : World) :
  handles w !! nextFd w = None →
  handles (readFile filename params w).1 = handles w
  ∨ (handles (readFile filename params w).1
       = <[nextFd w := (filename, FlagR)]> (handles w)
     ∧ ∃ reader e,
         selectedReader filename (nextFd w) = Some reader
         ∧ reader (openedForRead filename w) = Throw e
         ∧ (readFile filename params w).2 = Throw e).
Proof.
  intros Hfree. rewrite readFile_run. cbv zeta.
  destruct (endsWith (toLowerCase filename) ".mjs"); [by left|].
  destruct (hostFault (SysOpen filename FlagR) _); [by left|].
  destruct (files w !! filename); [|by left].
  destruct (selectedReader filename (nextFd w)) as [reader|] eqn:Hsel.
  - destruct (reader (openedForRead filename w)) as [fileData|e] eqn:Hread.
    + left. simpl. by apply delete_insert_id.
    + right. split; [done|]. by exists reader, e.
  - left. simpl. by apply delete_insert_id.
Qed.

(** X6. The input is opened before its type is looked at: for a name that
    does not end in [.mjs] and names no file, [readFile] ends in the error of
    [open] whatever the suffix is (supported or not), consults no reader and
    leaves no handle behind. *)
Theorem readFile_missing_file (filename : string) (params : list Param) (w : World) :
  endsWith (toLowerCase filename) ".mjs" = false →
  files w !! filename = None →
  ∃ code,
    readFile filename params w
    = (record (EvOpen filename FlagR false) (record (EvConsole (LogReading filename)) w),
       Throw (IOError code))
    ∧ (hostFault (SysOpen filename FlagR) (record (EvConsole (LogReading filename)) w)
         = None → code = "ENOENT").
Proof.
  intros Hmjs Hnone. rewrite readFile_run. cbv zeta. rewrite Hmjs, Hnone.
  destruct (hostFault (SysOpen filename FlagR) _) as [code|].
  - by exists code.
  - by exists "ENOENT".
Qed.

(** X7. A [.mjs] input is generated, not read: no file is opened (the name
    need not exist), and the outcome is that of [readMjs]. *)
Theorem readFile_mjs_opens_nothing (filename : string) (params : list Param)
    (w : World) :
  endsWith (toLowerCase filename) ".mjs" = true →
  let w0 := record (EvConsole (LogReading filename)) w in
  readFile filename params w = (w0, readMjs filename params w0)
  ∧ handles (readFile filename params w).1 = handles w
  ∧ nextFd (readFile filename params w).1 = nextFd w
  ∧ trace (readFile filename params w).1 = trace w ++ [EvConsole (LogReading filename)].
Proof.
  intros Hmjs. rewrite readFile_run. cbv zeta. by rewrite Hmjs.
Qed.

(** X8. On the input side a name ending in [lod-meta.json] is a [meta.json]
    name: it is handed to the sog reader, while [getOutputFormat] sends the
    same name to the lod writer. *)
Theorem lod_meta_is_read_as_sog (filename : string) (inputFile : nat) :
  endsWith (toLowerCase filename) "lod-meta.json" = true →
  selectedReader filename inputFile = Some (readSog inputFile filename)
  ∧ getOutputFormat filename = Return FmtLod.
Proof.
  intros Hlod. split; [|by apply getOutputFormat_lod_meta].
  unfold selectedReader. cbv zeta.
  rewrite (endsWith_exclusive _ "lod-meta.json" ".ksplat" eq_refl eq_refl Hlod).
  rewrite (endsWith_exclusive _ "lod-meta.json" ".splat" eq_refl eq_refl Hlod).
  rewrite (endsWith_weaken _ "lod-meta.json" "meta.json" eq_refl Hlod).
  by rewrite orb_true_r.
Qed.

End ReaderMore.

Lemma readFile_handle_accounting_witness :
  handles (@readFile quietHost goodCodecs "/in/a.ply" [] sampleWorld).1
    = handles sampleWorld
  ∨ (handles (@readFile quietHost goodCodecs "/in/a.ply" [] sampleWorld).1
       = <[nextFd sampleWorld := ("/in/a.ply", FlagR)]> (handles sampleWorld)
     ∧ ∃ reader e,
         @selectedReader goodCodecs "/in/a.ply" (nextFd sampleWorld) = Some reader
         ∧ reader (openedForRead "/in/a.ply" sampleWorld) = Throw e
         ∧ (@readFile quietHost goodCodecs "/in/a.ply" [] sampleWorld).2 = Throw e).
Proof.
  apply (@readFile_handle_accounting quietHost goodCodecs "/in/a.ply" [] sampleWorld).
  reflexivity.
Defined.

(** A name spelled with U+212A KELVIN SIGN lower-cases to a [.ksplat] name and
    is read by [readKsplat]; when that reader throws, the input handle stays
    open. *)
Example kelvin_name_is_ksplat :
  toLowerCase kelvinName = "/in/a.ksplat"
  ∧ @selectedReader goodCodecs kelvinName 3 = Some (@readKsplat goodCodecs 3)
  ∧ handles (@readFile quietHost brokenPlyCodecs kelvinName []
               (mkWorld (<[kelvinName := payload]> ∅) ∅ 3 [])).1
    = <[3 := (kelvinName, FlagR)]> ∅.
Proof. repeat split; vm_compute; reflexivity. Qed.

Lemma readFile_missing_file_witness :
  ∃ code,
    @readFile quietHost goodCodecs "/in/none.xyz" [] sampleWorld
    = (record (EvOpen "/in/none.xyz" FlagR false)
         (record (EvConsole (LogReading "/in/none.xyz")) sampleWorld),
       Throw (IOError code))
    ∧ (@hostFault quietHost (SysOpen "/in/none.xyz" FlagR)
         (record (EvConsole (LogReading "/in/none.xyz")) sampleWorld) = None →
       code = "ENOENT").
Proof.
  apply (@readFile_missing_file quietHost goodCodecs "/in/none.xyz" [] sampleWorld);
    reflexivity.
Defined.

Lemma readFile_mjs_opens_nothing_witness :
  @readFile quietHost goodCodecs "gen.mjs" [] sampleWorld
  = (record (EvConsole (LogReading "gen.mjs")) sampleWorld, Return splatFile).
Proof.
  apply (@readFile_mjs_opens_nothing quietHost goodCodecs "gen.mjs" [] sampleWorld).
  reflexivity.
Defined.

Lemma lod_meta_is_read_as_sog_witness :
  @selectedReader goodCodecs "out/lod-meta.json" 3
    = Some (@readSog goodCodecs 3 "out/lod-meta.json")
  ∧ getOutputFormat "out/lod-meta.json" = Return FmtLod.
Proof.
  apply (@lod_meta_is_read_as_sog goodCodecs "out/lod-meta.json" 3). reflexivity.
Defined.

(** ** More on [writeFile] *)

Section CommitMore.
Context `{Host} `{Codecs}.

Lemma writeFile_throw_keeps_target (filename : string) (table : DataTable)
    (options : Options) (w w' : World) (e : Error) :
  writeFile filename table options w = (w', Throw e) →
  files w' !! filename = files w !! filename.
Proof.
  pose proof (tmpPathname_ne filename (announced filename w)) as Hne.
  rewrite writeFile_run.
  destruct (getOutputFormat filename) as [fmt|e0]; [|by intros [= <- _]].
  cbv zeta. repeat case_match; intros [= <- ?]; simpl; try done;
    by rewrite lookup_insert_ne.
Qed.

(** X9. [writeFile] never leaves its handle open: when the descriptor about
    to be handed out is free, every run, failed or not, ends with the open
    handles it started with. *)
Theorem writeFile_handles_balanced (filename : string) (table : DataTable)
    (options : Options) (w : World) :
  handles w !! nextFd w = None →
  handles (writeFile filename table options w).1 = handles w.
Proof.
  intros Hfree. rewrite writeFile_run.
  destruct (getOutputFormat filename) as [fmt|e0]; [|done].
  cbv zeta. repeat case_match; simpl; try done; by apply delete_insert_id.
Qed.

(** X10. After a successful [writeFile] the files are the old ones with the
    written bytes at the target path: the temporary file is gone, and no
    other path has changed. *)
Theorem writeFile_success_leaves_no_temp (filename : string) (table : DataTable)
    (options : Options) (w w' : World) :
  writeFile filename table options w = (w', Return tt) →
  ∃ fmt,
    getOutputFormat filename = Return fmt
    ∧ files w' = <[filename := (selectedWriter fmt (nextFd w) table filename options
                                  (staged filename w)).1]> (files w)
    ∧ files w' !! tmpPathname filename (announced filename w) = None.
Proof.
  intros (fmt & Hfmt & Hfree & Hfiles)%writeFile_success_installs.
  exists fmt. split; [done|]. split; [done|].
  rewrite Hfiles, lookup_insert_ne; [done|].
  intros Heq. by apply (tmpPathname_ne filename (announced filename w)).
Qed.

(** X11. A run that fails after the temporary file was created abandons it:
    the files afterwards are the old ones plus the temporary file, holding
    whatever the writer had produced. *)
Theorem writeFile_failure_leaves_temp (filename : string) (table : DataTable)
    (options : Options) (w w' : World) (e : Error) (fmt : OutputFormat) :
  getOutputFormat filename = Return fmt →
  hostFault (SysOpen (tmpPathname filename (announced filename w)) FlagWX)
            (announced filename w) = None →
  files w !! tmpPathname filename (announced filename w) = None →
  writeFile filename table options w = (w', Throw e) →
  files w' = <[tmpPathname filename (announced filename w) :=
                 (selectedWriter fmt (nextFd w) table filename options
                    (staged filename w)).1]> (files w).
Proof.
  intros Hfmt Hopen Hfree. rewrite writeFile_run, Hfmt. cbv zeta.
  rewrite Hopen, Hfree.
  repeat case_match; intros [= <- ?]; done.
Qed.

(** X12. The temporary file is created exclusively: when its path is taken,
    [writeFile] fails with [EEXIST] (unless the host fails the call for a
    reason of its own) before any writer runs, and changes no file. *)
Theorem writeFile_temp_exists (filename : string) (table : DataTable)
    (options : Options) (w : World) (fmt : OutputFormat) (content : list Byte.byte) :
  getOutputFormat filename = Return fmt →
  hostFault (SysOpen (tmpPathname filename (announced filename w)) FlagWX)
            (announced filename w) = None →
  files w !! tmpPathname filename (announced filename w) = Some content →
  writeFile filename table options w
  = (record (EvOpen (tmpPathname filename (announced filename w)) FlagWX false)
       (announced filename w),
     Throw (IOError "EEXIST")).
Proof.
  intros Hfmt Hopen Htaken. rewrite writeFile_run, Hfmt. cbv zeta.
  by rewrite Hopen, Htaken.
Qed.

End CommitMore.

Lemma writeFile_handles_balanced_witness :
  handles (@writeFile quietHost brokenPlyCodecs "/out/b.ply" splatTable defaultOptions
             sampleWorld).1 = handles sampleWorld.
Proof.
  apply (@writeFile_handles_balanced quietHost brokenPlyCodecs "/out/b.ply" splatTable
           defaultOptions sampleWorld).
  reflexivity.
Defined.

Lemma writeFile_success_leaves_no_temp_witness :
  ∃ fmt,
    getOutputFormat "/out/b.ply" = Return fmt
    ∧ files (@writeFile quietHost goodCodecs "/out/b.ply" splatTable defaultOptions
               sampleWorld).1
      = <["/out/b.ply" := (@selectedWriter goodCodecs fmt (nextFd sampleWorld) splatTable
                             "/out/b.ply" defaultOptions
                             (@staged quietHost "/out/b.ply" sampleWorld)).1]>
          (files sampleWorld)
    ∧ files (@writeFile quietHost goodCodecs "/out/b.ply" splatTable defaultOptions
               sampleWorld).1
        !! @tmpPathname quietHost "/out/b.ply" (announced "/out/b.ply" sampleWorld)
      = None.
Proof.
  apply (@writeFile_success_leaves_no_temp quietHost goodCodecs "/out/b.ply" splatTable
           defaultOptions sampleWorld).
  vm_compute. reflexivity.
Defined.

Lemma writeFile_failure_leaves_temp_witness :
  files (@writeFile quietHost brokenPlyCodecs "/out/b.ply" splatTable defaultOptions
           sampleWorld).1
  = <[@tmpPathname quietHost "/out/b.ply" (announced "/out/b.ply" sampleWorld) :=
        [Byte.x70]]> (files sampleWorld).
Proof.
  apply (@writeFile_failure_leaves_temp quietHost brokenPlyCodecs "/out/b.ply"
           splatTable defaultOptions sampleWorld _ (CodecError "disk full") FmtPly).
  - reflexivity.
  - reflexivity.
  - vm_compute. reflexivity.
  - vm_compute. reflexivity.
Defined.

Lemma writeFile_temp_exists_witness :
  (@writeFile quietHost goodCodecs "/out/b.ply" splatTable defaultOptions crowdedWorld).2
  = Throw (IOError "EEXIST").
Proof.
  rewrite (@writeFile_temp_exists quietHost goodCodecs "/out/b.ply" splatTable
             defaultOptions crowdedWorld FmtPly oldContent).
  - reflexivity.
  - reflexivity.
  - reflexivity.
  - vm_compute. reflexivity.
Defined.

(** ** More on [combine] *)

Section CombineMore.
Implicit Types (R cols : list Column) (c : Column) (ts : list DataTable).

Lemma pushIfNew_prefix cols c : cols `prefix_of` pushIfNew cols c.
Proof.
  unfold pushIfNew. destruct (findMatchingColumn cols c); [done|].
  by apply prefix_app_r.
Qed.

Lemma pushIfNew_from cols c x : x ∈ pushIfNew cols c → x ∈ cols ∨ x = c.
Proof.
  unfold pushIfNew. destruct (findMatchingColumn cols c); [by left|].
  intros [Hin|Hin]%elem_of_app; [by left|]. right.
  by apply list_elem_of_singleton in Hin.
Qed.

Lemma pushIfNew_NoDup cols c :
  NoDup (identity <$> cols) → NoDup (identity <$> pushIfNew cols c).
Proof.
  intros Hnd. unfold pushIfNew.
  destruct (findMatchingColumn cols c) eqn:Hfind; [done|].
  apply findMatchingColumn_None in Hfind.
  rewrite fmap_app. apply NoDup_app. split; [done|]. split.
  - intros x Hx [->|Hin]%elem_of_cons; [done|]. by apply elem_of_nil in Hin.
  - apply NoDup_singleton.
Qed.

Lemma fold_pushIfNew_schema cs cols :
  cols `prefix_of` fold_left pushIfNew cs cols
  ∧ (∀ x, x ∈ fold_left pushIfNew cs cols → x ∈ cols ∨ x ∈ cs)
  ∧ (NoDup (identity <$> cols) → NoDup (identity <$> fold_left pushIfNew cs cols)).
Proof.
  revert cols. induction cs as [|h cs IH]; intros cols; simpl.
  - split; [done|]. split; [by left|done].
  - destruct (IH (pushIfNew cols h)) as (Hpre & Hfrom & Hnd). split; [|split].
    + etrans; [apply pushIfNew_prefix|done].
    + intros x [Hx|Hx]%Hfrom.
      * apply pushIfNew_from in Hx as [Hx| ->]; [by left|]. right. left.
      * right. by right.
    + intros Hcols. by apply Hnd, pushIfNew_NoDup.
Qed.

Lemma uniqueColumns_schema first others :
  columns first `prefix_of` uniqueColumns first others
  ∧ (∀ x, x ∈ uniqueColumns first others →
          ∃ t, t ∈ first :: others ∧ x ∈ columns t)
  ∧ (NoDup (identity <$> columns first) →
     NoDup (identity <$> uniqueColumns first others)).
Proof.
  unfold uniqueColumns.
  assert (Hgen : ∀ init,
    let out := fold_left (λ cols t, fold_left pushIfNew (columns t) cols) others init in
    init `prefix_of` out
    ∧ (∀ x, x ∈ out → x ∈ init ∨ ∃ t, t ∈ others ∧ x ∈ columns t)
    ∧ (NoDup (identity <$> init) → NoDup (identity <$> out))).
  { induction others as [|h others IH]; intros init; simpl.
    - split; [done|]. split; [by left|done].
    - destruct (IH (fold_left pushIfNew (columns h) init)) as (Hpre & Hfrom & Hnd).
      destruct (fold_pushIfNew_schema (columns h) init) as (Hpre' & Hfrom' & Hnd').
      split; [by etrans|]. split.
      + intros x [Hx|(t & Ht & Hx)]%Hfrom.
        * apply Hfrom' in Hx as [Hx|Hx]; [by left|].
          right. exists h. split; [left|done].
        * right. exists t. split; [by right|done].
      + intros Hinit. by apply Hnd, Hnd'. }
  destruct (Hgen (columns first)) as (Hpre & Hfrom & Hnd).
  split; [done|]. split; [|done].
  intros x [Hx|(t & Ht & Hx)]%Hfrom.
  - exists first. split; [left|done].
  - exists t. split; [by right|done].
Qed.

(** X13. The columns of a combined table: the identities of the first
    table's columns come first, in their order; an identity is in the output
    exactly when some input column carries it; and when the first table
    carries no identity twice, neither does the output. *)
Theorem combine_output_schema (first : DataTable) (others : list DataTable)
    (r : DataTable) :
  others ≠ [] → combine (first :: others) = Return r →
  identity <$> columns first `prefix_of` identity <$> columns r
  ∧ (∀ id, id ∈ identity <$> columns r ↔
           ∃ t c, t ∈ first :: others ∧ c ∈ columns t ∧ identity c = id)
  ∧ (NoDup (identity <$> columns first) → NoDup (identity <$> columns r)).
Proof.
  intros Hothers Hr.
  destruct (combine_general_Return (first :: others) r) as (f & o & Heq & Hcopy);
    [destruct others; [done|simpl; lia] | done |].
  injection Heq as <- <-.
  pose proof (copyTables_identities _ _ _ _ Hcopy) as Hids.
  rewrite freshColumn_identities in Hids. rewrite Hids.
  destruct (uniqueColumns_schema first others) as (Hpre & Hfrom & Hnd).
  split; [|split; [|done]].
  - destruct Hpre as [k ->]. rewrite fmap_app. by apply prefix_app_r.
  - intros id. split.
    + intros (x & -> & Hx)%list_elem_of_fmap.
      destruct (Hfrom x Hx) as (t & Ht & Hxt). by exists t, x.
    + intros (t & c & Ht & Hc & <-). by eapply uniqueColumns_cover.
Qed.

(** X14. [combine] keeps the invariant of the data model: from tables whose
    columns all have [numRows] cells it returns a table whose columns all
    have [numRows] cells. *)
Theorem combine_result_well_formed ts r :
  Forall wfTable ts → combine ts = Return r → wfTable r.
Proof.
  intros Hwf Hr. destruct ts as [|first [|second rest]]; [done| |].
  - simpl in Hr. injection Hr as <-. by apply Forall_cons in Hwf as [? _].
  - destruct (combine_general_Return (first :: second :: rest) r
                ltac:(simpl; lia) Hr) as (f & o & _ & Hcopy).
    pose proof (lengths_Forall _ _ _ (copyTables_lengths _ _ _ _ Hcopy)
                  (freshColumn_lengths _ _)) as Hall.
    unfold wfTable, numRows. destruct (columns r) as [|c cs]; [done|].
    pose proof Hall as [Hc _]%Forall_cons. rewrite Hc. done.
Qed.

(** X15. When a table carries an identity more than once (among two or more
    tables), the data of the last column with that identity is what the
    matching output column holds on the table's rows. *)
Theorem combine_last_duplicate_wins ts :
  2 ≤ length ts → Forall wfTable ts →
  ∃ r, combine ts = Return r
    ∧ ∀ i t j c,
        ts !! i = Some t → columns t !! j = Some c →
        (∀ j' c', j < j' → columns t !! j' = Some c' → identity c' ≠ identity c) →
        ∃ k out,
          findMatchingColumn (columns r) c = Some k ∧ columns r !! k = Some out
          ∧ ∀ x, x < numRows t →
              cells (data out) !! (rowOffset ts i + x) = cells (data c) !! x.
Proof.
  intros Hlen Hwf. destruct (combine_general_succeeds ts Hlen Hwf) as [r Hr].
  exists r. split; [done|]. intros i t j c Hi Hj Hlast.
  destruct (combine_general_preserves ts r i t (take j (columns t)) c
              (drop (S j) (columns t)))
    as (k & out & Hk & Hout & _ & Hdata); try done.
  - by rewrite take_drop_middle.
  - intros c' Hc'. apply list_elem_of_lookup in Hc' as [n Hn].
    rewrite lookup_drop in Hn. apply (Hlast (S j + n) c'); [lia|done].
  - by exists k, out.
Qed.

Lemma copyColumn_Throw R c o e :
  identity c ∈ identity <$> R → copyColumn R c o = Throw e → e = RangeError.
Proof.
  intros Hin. unfold copyColumn.
  destruct (findMatchingColumn_is_Some _ _ Hin) as [i Hi]. rewrite Hi.
  apply findMatchingColumn_Some in Hi as ((tgt & -> & _) & _).
  unfold typedArraySet. case_decide; [done|]. rewrite bind_Throw. congruence.
Qed.

Lemma copyColumns_Throw R cols o e :
  (∀ c, c ∈ cols → identity c ∈ identity <$> R) →
  copyColumns R cols o = Throw e → e = RangeError.
Proof.
  revert R. induction cols as [|c cols IH]; intros R Hcover; [done|]. simpl.
  destruct (copyColumn R c o) as [R1|e1] eqn:Hc.
  - rewrite bind_Return. apply IH. intros c' Hc'.
    rewrite (copyColumn_identities _ _ _ _ Hc). apply Hcover. by right.
  - rewrite bind_Throw. intros [= <-].
    eapply copyColumn_Throw; [|done]. apply Hcover. left.
Qed.

Lemma copyTables_Throw R ts o e :
  (∀ t c, t ∈ ts → c ∈ columns t → identity c ∈ identity <$> R) →
  copyTables R ts o = Throw e → e = RangeError.
Proof.
  revert R o. induction ts as [|t ts IH]; intros R o Hcover; [done|]. simpl.
  destruct (copyColumns R (columns t) o) as [R1|e1] eqn:Hc.
  - rewrite bind_Return. apply IH. intros t' c Ht' Hin.
    rewrite (copyColumns_identities _ _ _ _ Hc). apply (Hcover t' c); [by right|done].
  - rewrite bind_Throw. intros [= <-].
    eapply copyColumns_Throw; [|done]. intros c Hin. apply (Hcover t c); [left|done].
Qed.

(** X16. On two or more tables [combine] fails in one way only: with the
    [RangeError] of a [set] that does not fit, which takes a table whose
    columns are not all [numRows] long.  The search for the output column
    never comes back empty. *)
Theorem combine_fails_only_out_of_range ts e :
  2 ≤ length ts → combine ts = Throw e →
  e = RangeError ∧ ¬ Forall wfTable ts.
Proof.
  intros Hlen Hthrow. split.
  - destruct ts as [|first [|second rest]]; simpl in Hlen; [lia..|].
    rewrite combine_general in Hthrow.
    destruct (copyTables _ _ 0) as [R'|e'] eqn:Hcopy; [done|].
    rewrite bind_Throw in Hthrow. injection Hthrow as <-.
    eapply copyTables_Throw; [|done].
    intros t c Ht Hc. rewrite freshColumn_identities.
    by eapply uniqueColumns_cover.
  - intros Hwf. destruct (combine_general_succeeds ts Hlen Hwf) as [r Hr].
    congruence.
Qed.

End CombineMore.

Lemma combine_output_schema_witness :
  ∃ r, combine scenario = Return r
    ∧ identity <$> columns xyzTable `prefix_of` identity <$> columns r
    ∧ NoDup (identity <$> columns r).
Proof.
  eexists. split; [apply combine_scenario|].
  destruct (combine_output_schema xyzTable [xyzOpacityTable] _ ltac:(discriminate)
              combine_scenario) as (Hpre & _ & Hnd).
  split; [exact Hpre|]. apply Hnd.
  apply (bool_decide_unpack _). vm_compute. exact I.
Defined.

Lemma combine_result_well_formed_witness :
  ∃ r, combine scenario = Return r ∧ wfTable r.
Proof.
  eexists. split; [apply combine_scenario|].
  apply (combine_result_well_formed scenario); [repeat constructor|].
  apply combine_scenario.
Defined.

Lemma combine_last_duplicate_wins_witness :
  ∃ r, combine duplicated = Return r
    ∧ ∀ i t j c,
        duplicated !! i = Some t → columns t !! j = Some c →
        (∀ j' c', j < j' → columns t !! j' = Some c' → identity c' ≠ identity c) →
        ∃ k out,
          findMatchingColumn (columns r) c = Some k ∧ columns r !! k = Some out
          ∧ ∀ x, x < numRows t →
              cells (data out) !! (rowOffset duplicated i + x) = cells (data c) !! x.
Proof.
  apply (combine_last_duplicate_wins duplicated).
  - simpl. lia.
  - repeat constructor.
Defined.

Lemma combine_fails_only_out_of_range_witness :
  ¬ Forall wfTable
      [mkDataTable [f32 "a" [1]; f32 "b" [5; 6; 7]]%Z; mkDataTable [f32 "a" [2]%Z]].
Proof.
  apply (combine_fails_only_out_of_range
           [mkDataTable [f32 "a" [1]; f32 "b" [5; 6; 7]]%Z; mkDataTable [f32 "a" [2]%Z]]
           RangeError).
  - simpl. lia.
  - vm_compute. reflexivity.
Defined.

(** ** More on [convertGsplat] *)

Section OrchestratorMore.
Context `{Host} `{Codecs}.

Lemma readFile_files_unchanged (filename : string) (params : list Param) (w : World) :
  files (readFile filename params w).1 = files w.
Proof. rewrite readFile_run. cbv zeta. by repeat case_match. Qed.

(** The [try] block, stage by stage. *)
Lemma tryBlock_run (filename outputFilename : string) (w : World) :
  tryBlock filename outputFilename w =
    match readFile (resolve filename) [] w with
    | (w1, Throw e) => (w1, Throw e)
    | (w1, Return file) =>
        if validInput file then
          match elements file with
          | element :: _ =>
              match processDataTable (dataTable element) [] with
              | Throw e => (w1, Throw e)
              | Return t1 =>
                  match processDataTable t1 [] with
                  | Throw e => (w1, Throw e)
                  | Return t2 =>
                      if numRows t2 =? 0 then (w1, Throw NoSplats)
                      else
                        match writeFile (resolve outputFilename) t2 defaultOptions
                                (record (EvConsole (LogLoaded (numRows t2))) w1) with
                        | (w2, Return _) => (w2, Return (mkResult true None))
                        | (w2, Throw e) => (w2, Throw e)
                        end
                  end
              end
          | [] => (w1, Throw (UnsupportedData filename))
          end
        else (w1, Throw (UnsupportedData filename))
    end.
Proof.
  unfold tryBlock, readInput. rewrite !io_bind_run.
  destruct (readFile (resolve filename) [] w) as [w1 [file|e]]; [|done].
  unfold validInput.
  destruct (elements file) as [|element [|other rest]]; [done| |done].
  destruct (String.eqb (elementName element) "vertex"); [|done].
  destruct (numRows (dataTable element) =? 0); [done|].
  destruct (isGSDataTable (dataTable element)); [|done].
  simpl. unfold liftO. rewrite io_bind_run.
  destruct (processDataTable (dataTable element) []) as [t1|e]; [|done].
  unfold mret at 1, IO_ret at 1. rewrite io_bind_run.
  match goal with
  | |- match ?o with Return _ => _ | Throw _ => _ end = _ =>
      change o with (processDataTable t1 [])
  end.
  destruct (processDataTable t1 []) as [t2|e]; [|done].
  destruct (numRows t2 =? 0); [done|].
  rewrite io_bind_run. unfold console. rewrite io_bind_run.
  by destruct (writeFile _ _ _ _) as [w2 [[]|e]].
Qed.

Lemma validInput_single (file : FileData) :
  validInput file = true →
  ∃ element,
    elements file = [element] ∧ elementName element = "vertex"
    ∧ numRows (dataTable element) ≠ 0 ∧ isGSDataTable (dataTable element) = true.
Proof.
  unfold validInput. destruct (elements file) as [|element [|other rest]]; try done.
  intros [[Hname Hrows%negb_true_iff]%andb_true_iff Hgs]%andb_true_iff.
  exists element. split; [done|]. split; [by apply String.eqb_eq|].
  split; [by apply Nat.eqb_neq|done].
Qed.

(** X17. A failed conversion leaves the output path as it was: whenever
    [convertGsplat] returns [isOk: false], whatever stage failed, the file at
    the resolved output path is the one from before the call (or still
    absent). *)
Theorem convertGsplat_failure_keeps_output (filename outputFilename : string)
    (w w' : World) (res : ConvertResult) :
  convertGsplat filename outputFilename w = (w', Return res) →
  isOk res = false →
  files w' !! resolve outputFilename = files w !! resolve outputFilename.
Proof.
  unfold convertGsplat, tryCatch. rewrite tryBlock_run.
  pose proof (readFile_files_unchanged (resolve filename) [] w) as Hread.
  destruct (readFile (resolve filename) [] w) as [w1 [file|e]]; simpl in Hread.
  2:{ intros [= <- <-] _. simpl. by rewrite Hread. }
  destruct (validInput file); [|intros [= <- <-] _; simpl; by rewrite Hread].
  destruct (elements file) as [|element rest];
    [intros [= <- <-] _; simpl; by rewrite Hread|].
  destruct (processDataTable (dataTable element) []) as [t1|e];
    [|intros [= <- <-] _; simpl; by rewrite Hread].
  destruct (processDataTable t1 []) as [t2|e];
    [|intros [= <- <-] _; simpl; by rewrite Hread].
  destruct (numRows t2 =? 0); [intros [= <- <-] _; simpl; by rewrite Hread|].
  destruct (writeFile _ _ _ _) as [w2 [[]|e]] eqn:Hwrite.
  - by intros [= <- <-] ?.
  - intros [= <- <-] _. simpl.
    rewrite (writeFile_throw_keeps_target _ _ _ _ _ _ Hwrite). simpl.
    by rewrite Hread.
Qed.

(** X18. What [isOk: true] stands for: the input was read into a file record
    with exactly one element, named [vertex], with rows and the splat
    columns; the external transform was applied twice in a row to its table
    ([combine] of the one table changes nothing); the result had rows; and
    [writeFile] succeeded on it with the fixed options, so the output path
    holds what the writer produced. *)
Theorem convertGsplat_success (filename outputFilename : string)
    (w w' : World) (res : ConvertResult) :
  convertGsplat filename outputFilename w = (w', Return res) →
  isOk res = true →
  ∃ w1 file element t1 t2,
    readFile (resolve filename) [] w = (w1, Return file)
    ∧ elements file = [element] ∧ elementName element = "vertex"
    ∧ numRows (dataTable element) ≠ 0 ∧ isGSDataTable (dataTable element) = true
    ∧ processDataTable (dataTable element) [] = Return t1
    ∧ processDataTable t1 [] = Return t2
    ∧ numRows t2 ≠ 0
    ∧ writeFile (resolve outputFilename) t2 defaultOptions
        (record (EvConsole (LogLoaded (numRows t2))) w1) = (w', Return tt)
    ∧ is_Some (files w' !! resolve outputFilename).
Proof.
  unfold convertGsplat, tryCatch. rewrite tryBlock_run.
  destruct (readFile (resolve filename) [] w) as [w1 [file|e]];
    [|by intros [= <- <-] ?].
  destruct (validInput file) eqn:Hvalid; [|by intros [= <- <-] ?].
  destruct (validInput_single file Hvalid) as (element & Hel & Hname & Hrows & Hgs).
  rewrite Hel.
  destruct (processDataTable (dataTable element) []) as [t1|e] eqn:H1;
    [|by intros [= <- <-] ?].
  destruct (processDataTable t1 []) as [t2|e] eqn:H2; [|by intros [= <- <-] ?].
  destruct (numRows t2 =? 0) eqn:Hzero; [by intros [= <- <-] ?|].
  destruct (writeFile _ _ _ _) as [w2 [[]|e]] eqn:Hwrite; [|by intros [= <- <-] ?].
  intros [= <- <-] _. exists w1, file, element, t1, t2.
  repeat (split; [done|]). split; [by apply Nat.eqb_neq|]. split; [done|].
  apply writeFile_success_installs in Hwrite as (fmt & _ & _ & ->).
  rewrite lookup_insert_eq. by eexists.
Qed.

(** X19. Data that is not a single [vertex] element with rows and the splat
    columns stops the conversion right after the read: the result is
    [isOk: false] with the unsupported-data error naming the input as it was
    given (not as resolved), nothing is written, and no file has changed. *)
Theorem convertGsplat_invalid_input (filename outputFilename : string)
    (w w1 : World) (file : FileData) :
  readFile (resolve filename) [] w = (w1, Return file) →
  validInput file = false →
  convertGsplat filename outputFilename w
  = (record (EvConsole (LogError (UnsupportedData filename))) w1,
     Return (mkResult false (Some (UnsupportedData filename))))
  ∧ files w1 = files w.
Proof.
  intros Hread Hvalid. split.
  - unfold convertGsplat, tryCatch. by rewrite tryBlock_run, Hread, Hvalid.
  - pose proof (readFile_files_unchanged (resolve filename) [] w) as Hfiles.
    by rewrite Hread in Hfiles.
Qed.

(** X20. When the transform leaves no rows, the conversion ends in
    [isOk: false] with the no-splats error before [writeFile] is entered: the
    world is the one the read left, plus the logged error. *)
Theorem convertGsplat_no_splats (filename outputFilename : string)
    (w w1 : World) (file : FileData) (element : Element) (t1 t2 : DataTable) :
  readFile (resolve filename) [] w = (w1, Return file) →
  validInput file = true →
  elements file = [element] →
  processDataTable (dataTable element) [] = Return t1 →
  processDataTable t1 [] = Return t2 →
  numRows t2 = 0 →
  convertGsplat filename outputFilename w
  = (record (EvConsole (LogError NoSplats)) w1,
     Return (mkResult false (Some NoSplats))).
Proof.
  intros Hread Hvalid Hel H1 H2 Hzero.
  unfold convertGsplat, tryCatch.
  rewrite tryBlock_run, Hread, Hvalid, Hel, H1, H2, Hzero. done.
Qed.

End OrchestratorMore.

Lemma convertGsplat_failure_keeps_output_witness :
  files (@convertGsplat quietHost fullDiskCodecs "/in/a.ply" "/out/b.ply" sampleWorld).1
    !! "/out/b.ply"
  = Some oldContent.
Proof.
  change (Some oldContent) with (files sampleWorld !! @resolve quietHost "/out/b.ply").
  apply (@convertGsplat_failure_keeps_output quietHost fullDiskCodecs "/in/a.ply"
           "/out/b.ply" sampleWorld _ (mkResult false (Some (CodecError "disk full")))).
  - vm_compute. reflexivity.
  - reflexivity.
Defined.

Lemma convertGsplat_success_witness :
  is_Some (files (@convertGsplat quietHost goodCodecs "/in/a.ply" "/out/b.ply"
                    sampleWorld).1 !! "/out/b.ply").
Proof.
  destruct (@convertGsplat_success quietHost goodCodecs "/in/a.ply" "/out/b.ply"
              sampleWorld
              (@convertGsplat quietHost goodCodecs "/in/a.ply" "/out/b.ply" sampleWorld).1
              (mkResult true None))
    as (w1 & file & element & t1 & t2 & _ & _ & _ & _ & _ & _ & _ & _ & _ & Hout).
  - vm_compute. reflexivity.
  - reflexivity.
  - exact Hout.
Defined.

Lemma convertGsplat_invalid_input_witness :
  (@convertGsplat quietHost xyzCodecs "/in/a.ply" "/out/c.ply" sampleWorld).2
  = Return (mkResult false (Some (UnsupportedData "/in/a.ply"))).
Proof.
  rewrite (proj1 (@convertGsplat_invalid_input quietHost xyzCodecs "/in/a.ply"
                    "/out/c.ply" sampleWorld
                    (@readFile quietHost xyzCodecs "/in/a.ply" [] sampleWorld).1
                    (mkFileData [] [mkElement "vertex" xyzTable])
                    ltac:(vm_compute; reflexivity) ltac:(reflexivity))).
  reflexivity.
Defined.

Lemma convertGsplat_no_splats_witness :
  (@convertGsplat quietHost filteringCodecs "/in/a.ply" "/out/c.ply" sampleWorld).2
  = Return (mkResult false (Some NoSplats)).
Proof.
  rewrite (@convertGsplat_no_splats quietHost filteringCodecs "/in/a.ply" "/out/c.ply"
             sampleWorld
             (@readFile quietHost filteringCodecs "/in/a.ply" [] sampleWorld).1
             splatFile (mkElement "vertex" splatTable)
             (noRows splatTable) (noRows (noRows splatTable))
             ltac:(vm_compute; reflexivity) ltac:(reflexivity) ltac:(reflexivity)
             ltac:(reflexivity) ltac:(reflexivity) ltac:(reflexivity)).
  reflexivity.
Defined.

Section HandlesOnSuccess.
Context `{Host} `{Codecs}.

Lemma readFile_Return_handles (filename : string) (params : list Param)
    (w w1 : World) (file : FileData) :
  handles w !! nextFd w = None →
  readFile filename params w = (w1, Return file) →
  handles w1 = handles w ∧ nextFd w ≤ nextFd w1.
Proof.
  intros Hfree. rewrite readFile_run. cbv zeta.
  repeat case_match; intros [= <- ?]; simplify_eq; simpl;
    (split; [try done; by apply delete_insert_id | lia]).
Qed.

Lemma writeFile_handles (filename : string) (table : DataTable)
    (options : Options) (w : World) :
  handles w !! nextFd w = None →
  handles (writeFile filename table options w).1 = handles w.
Proof.
  intros Hfree. rewrite writeFile_run.
  destruct (getOutputFormat filename) as [fmt|e0]; [|done].
  cbv zeta. repeat case_match; simpl; try done; by apply delete_insert_id.
Qed.

(** X21. A successful conversion leaves no handle open: when no descriptor
    from [nextFd] on is in use at the start, the open handles after a run
    that returns [isOk: true] are the ones from before it. *)
Theorem convertGsplat_success_closes_handles (filename outputFilename : string)
    (w w' : World) (res : ConvertResult) :
  (∀ fd, nextFd w ≤ fd → handles w !! fd = None) →
  convertGsplat filename outputFilename w = (w', Return res) →
  isOk res = true →
  handles w' = handles w.
Proof.
  intros Hfresh. unfold convertGsplat, tryCatch. rewrite tryBlock_run.
  destruct (readFile (resolve filename) [] w) as [w1 [file|e]] eqn:Hread;
    [|by intros [= <- <-] ?].
  destruct (readFile_Return_handles _ _ _ _ _ (Hfresh _ (Nat.le_refl _)) Hread)
    as [Hh Hn].
  destruct (validInput file); [|by intros [= <- <-] ?].
  destruct (elements file) as [|element rest]; [by intros [= <- <-] ?|].
  destruct (processDataTable (dataTable element) []) as [t1|e];
    [|by intros [= <- <-] ?].
  destruct (processDataTable t1 []) as [t2|e]; [|by intros [= <- <-] ?].
  destruct (numRows t2 =? 0); [by intros [= <- <-] ?|].
  destruct (writeFile _ _ _ _) as [w2 [[]|e]] eqn:Hwrite; [|by intros [= <- <-] ?].
  intros [= <- <-] _.
  pose proof (writeFile_handles (resolve outputFilename) t2 defaultOptions
                (record (EvConsole (LogLoaded (numRows t2))) w1)) as Hbal.
  rewrite Hwrite in Hbal. simpl in Hbal. rewrite Hbal; [done|].
  rewrite Hh. by apply Hfresh.
Qed.

End HandlesOnSuccess.

Lemma convertGsplat_success_closes_handles_witness :
  handles (@convertGsplat quietHost goodCodecs "/in/a.ply" "/out/b.ply" sampleWorld).1
  = handles sampleWorld.
Proof.
  apply (@convertGsplat_success_closes_handles quietHost goodCodecs "/in/a.ply"
           "/out/b.ply" sampleWorld _ (mkResult true None)).
  - intros fd _. reflexivity.
  - vm_compute. reflexivity.
  - reflexivity.
Defined.
